(* ===================================================================== *)
(* Tag-History: timeline page, event box and player administration.      *)
(*                                                                       *)
(* A shallow embedding of the client-side logic of                       *)
(*   pages/timeline.tsx              (TimelinePage)                      *)
(*   pages/admin/player.tsx          (PlayerManagement)                  *)
(*   components/timeline/EventBox    (EventBox)                          *)
(*   config/timelineControls         (zoomIn, zoomOut)                   *)
(* React state is modelled by explicit state passing: a handler maps the *)
(* component state (and the outside world it talks to) to the next one.  *)
(* JavaScript numbers that hold pixel coordinates and spacings are       *)
(* doubles: rationals, each arithmetic result rounded by the machine.    *)
(* Time values are integers. Strings are byte strings, the UTF-8         *)
(* encoding of the text; [trim] and [toLowerCase], which depend on the   *)
(* Unicode tables of the engine, are parameters of the handlers that use *)
(* them.                                                                 *)
(* ===================================================================== *)

From Stdlib Require Import Ascii String QArith Qround Qabs Qminmax Lqa.
From stdpp Require Import gmap strings list fin_maps sorting.

Local Open Scope string_scope.
Local Open Scope list_scope.

(* --------------------------------------------------------------------- *)
(* JavaScript built-ins used by the handlers                             *)
(* --------------------------------------------------------------------- *)
Module JS.

(** [Array.prototype.includes] on an array of strings: strict equality
    against every element. *)
Definition includes (l : list string) (x : string) : bool :=
  bool_decide (x ∈ l).

(** [Math.round]: the nearest integer, a tie going up. *)
Definition Math_round (x : Q) : Z := Qfloor (x + (1 # 2)).

(** The white space and line terminators of ASCII: TAB, LF, VT, FF, CR
    and SP. *)
Definition isWhiteSpace_ascii (c : ascii) : bool :=
  bool_decide (c ∈ ["009"; "010"; "011"; "012"; "013"; " "]%char).

Fixpoint trimStart_ascii (s : string) : string :=
  match s with
  | EmptyString => EmptyString
  | String c s' => if isWhiteSpace_ascii c then trimStart_ascii s' else s
  end.

Fixpoint trimEnd_ascii (s : string) : string :=
  match s with
  | EmptyString => EmptyString
  | String c s' =>
      match trimEnd_ascii s' with
      | EmptyString => if isWhiteSpace_ascii c then EmptyString
                       else String c EmptyString
      | t => String c t
      end
  end.

(** What [String.prototype.trim] does to ASCII text. The engine's [trim]
    strips the white space of Unicode as well (U+00A0, U+FEFF, the
    spaces of category Zs, U+2028, U+2029): the handlers take it as a
    parameter, and this function stands in for it in sample runs on
    ASCII text only. *)
Definition trim_ascii (s : string) : string :=
  trimEnd_ascii (trimStart_ascii s).

Definition toLowerCase_char (c : ascii) : ascii :=
  let n := nat_of_ascii c in
  if bool_decide (65 ≤ n ≤ 90)%nat then ascii_of_nat (n + 32) else c.

(** What [String.prototype.toLowerCase] does to ASCII text: the letters
    A to Z go to a to z, byte by byte. The engine's [toLowerCase] folds
    the letters outside ASCII too; a handler that compares names takes
    it as a parameter. *)
Fixpoint toLowerCase (s : string) : string :=
  match s with
  | EmptyString => EmptyString
  | String c s' => String (toLowerCase_char c) (toLowerCase s')
  end.

(** The text is ASCII: every byte is below 128. *)
Fixpoint isAscii (s : string) : bool :=
  match s with
  | EmptyString => true
  | String c s' => bool_decide (nat_of_ascii c < 128)%nat && isAscii s'
  end.

(** [[...new Set(l)]]: the distinct elements of [l], each at the place of
    its first occurrence. *)
Fixpoint Array_from_Set (l : list string) : list string :=
  match l with
  | [] => []
  | x :: l' => x :: filter (λ y, y ≠ x) (Array_from_Set l')
  end.

Section Sort.
Context {A : Type}.

(** The comparator handed to [Array.prototype.sort]; [None] is NaN. *)
Variable comparefn : A → A → option Z.

(** ECMAScript SortCompare: a NaN from the comparator counts as +0. *)
Definition SortCompare (x y : A) : Z := default 0%Z (comparefn x y).

Fixpoint sort_insert (x : A) (l : list A) : list A :=
  match l with
  | [] => [x]
  | y :: l' =>
      if decide (SortCompare x y ≤ 0)%Z then x :: y :: l'
      else y :: sort_insert x l'
  end.

(** [Array.prototype.sort(comparefn)]. ECMAScript fixes the outcome for
    a consistent comparator (the elements in comparator order, equal
    ones in their original order) and leaves the algorithm, and the
    order under an inconsistent comparator, to the engine. The model is
    the stable insertion sort: it is the result of every engine for a
    consistent comparator; for a comparator that answers NaN it shares
    with the engines that the result is a permutation of the array, and
    nothing is stated of its order. *)
Definition Array_sort (l : list A) : list A := foldr sort_insert [] l.

Lemma sort_insert_Permutation x l : sort_insert x l ≡ₚ x :: l.
Proof.
  induction l as [|y l IH]; simpl; [done|].
  case_decide; [done|]. rewrite IH. apply Permutation_swap.
Qed.

Lemma Array_sort_Permutation l : Array_sort l ≡ₚ l.
Proof.
  induction l as [|x l IH]; simpl; [done|].
  rewrite sort_insert_Permutation. by rewrite IH.
Qed.

(** When the comparator is the difference of an integer key, the result
    is ordered by that key. *)
Lemma sort_insert_sorted (key : A → Z) x l :
  (∀ y, y ∈ l → comparefn x y = Some (key x - key y)%Z) →
  StronglySorted (λ a b, key a ≤ key b)%Z l →
  StronglySorted (λ a b, key a ≤ key b)%Z (sort_insert x l).
Proof.
  intros Hcmp Hs. induction Hs as [|y l Hs IH Hall]; simpl.
  { repeat constructor. }
  assert (SortCompare x y = (key x - key y)%Z) as ->.
  { unfold SortCompare. rewrite Hcmp; [done | apply elem_of_cons; by left]. }
  case_decide as Hle.
  - constructor; [by constructor|].
    constructor; [lia|]. eapply Forall_impl; [exact Hall|]. simpl. lia.
  - constructor.
    + apply IH. intros z Hz. apply Hcmp. apply elem_of_cons. by right.
    + rewrite sort_insert_Permutation. constructor; [lia | done].
Qed.

Lemma Array_sort_sorted (key : A → Z) l :
  (∀ x y, x ∈ l → y ∈ l → comparefn x y = Some (key x - key y)%Z) →
  StronglySorted (λ a b, key a ≤ key b)%Z (Array_sort l).
Proof.
  induction l as [|x l IH]; intros Hcmp; simpl; [constructor|].
  apply sort_insert_sorted.
  - intros y Hy. rewrite Array_sort_Permutation in Hy.
    apply Hcmp; apply elem_of_cons; auto.
  - apply IH. intros a b Ha Hb. apply Hcmp; apply elem_of_cons; auto.
Qed.

End Sort.

Lemma StronglySorted_elem_impl {A} (R R' : relation A) (l : list A) :
  (∀ a b, a ∈ l → b ∈ l → R a b → R' a b) →
  StronglySorted R l → StronglySorted R' l.
Proof.
  intros Himpl Hs. induction Hs as [|x l Hs IH Hall]; constructor.
  - apply IH. intros a b Ha Hb. apply Himpl; apply elem_of_cons; auto.
  - rewrite Forall_forall in Hall. apply Forall_forall. intros y Hy.
    apply Himpl; [apply elem_of_cons; auto | apply elem_of_cons; auto |].
    by apply Hall.
Qed.

Lemma includes_true l x : includes l x = true ↔ x ∈ l.
Proof. unfold includes. apply bool_decide_eq_true. Qed.

Lemma includes_false l x : includes l x = false ↔ x ∉ l.
Proof. unfold includes. apply bool_decide_eq_false. Qed.

Lemma Math_round_nearest (x : Q) :
  (Qabs (inject_Z (Math_round x) - x) <= 1 # 2)%Q.
Proof.
  unfold Math_round.
  pose proof (Qfloor_le (x + (1 # 2))) as Hlo.
  pose proof (Qlt_floor (x + (1 # 2))) as Hhi.
  rewrite inject_Z_plus in Hhi. change (inject_Z 1) with 1%Q in Hhi.
  apply Qabs_Qle_condition.
  set (r := inject_Z _) in *. clearbody r. split; lra.
Qed.

Lemma elem_of_Array_from_Set l x : x ∈ Array_from_Set l ↔ x ∈ l.
Proof.
  induction l as [|y l IH]; simpl; [done|].
  rewrite !elem_of_cons, list_elem_of_filter, IH.
  destruct (decide (x = y)); tauto.
Qed.

Lemma filter_all (P : string → Prop) `{∀ x, Decision (P x)} l :
  Forall P l → filter P l = l.
Proof.
  induction 1 as [|x l Hx _ IH]; [done|].
  by rewrite filter_cons_True, IH.
Qed.

Lemma Array_from_Set_length l : (length (Array_from_Set l) ≤ length l)%nat.
Proof.
  induction l as [|y l IH]; simpl; [done|].
  pose proof (length_filter (λ z, z ≠ y) (Array_from_Set l)). lia.
Qed.

(** The test [uniqueAlts.length !== l.length] finds exactly the lists
    with a repeated element. *)
Lemma Array_from_Set_length_NoDup l :
  length (Array_from_Set l) = length l ↔ NoDup l.
Proof.
  induction l as [|y l IH]; simpl.
  { split; [constructor | done]. }
  pose proof (length_filter (λ z, z ≠ y) (Array_from_Set l)) as Hf.
  pose proof (Array_from_Set_length l) as Hl.
  rewrite NoDup_cons, <- IH. split.
  - intros Hlen. split; [|lia].
    intros Hin. apply elem_of_Array_from_Set in Hin.
    assert (length (filter (λ z, z ≠ y) (Array_from_Set l))
            < length (Array_from_Set l))%nat; [|lia].
    apply (length_filter_lt _ _ y); [done | by intros H].
  - intros [Hnin Hlen]. f_equal. rewrite <- Hlen. f_equal.
    apply filter_all. apply Forall_forall.
    intros z Hz ->. apply Hnin. by apply elem_of_Array_from_Set.
Qed.

Lemma trim_ascii_empty : trim_ascii "" = "".
Proof. reflexivity. Qed.

Section SortFacts.
Context {A : Type} (comparefn : A → A → option Z) (key : A → Z).

(** Inserting [x] moves it past elements of smaller key only: the
    elements of any one key stay in the order they had. *)
Lemma sort_insert_stable (t : Z) x l :
  (∀ y, y ∈ l → comparefn x y = Some (key x - key y)%Z) →
  filter (λ z, key z = t) (sort_insert comparefn x l)
  = filter (λ z, key z = t) (x :: l).
Proof.
  induction l as [|y l IH]; intros Hcmp; simpl; [done|].
  assert (SortCompare comparefn x y = (key x - key y)%Z) as ->.
  { unfold SortCompare. rewrite Hcmp; [done | apply elem_of_cons; by left]. }
  case_decide as Hle; [done|].
  assert (filter (λ z, key z = t) (sort_insert comparefn x l)
          = filter (λ z, key z = t) (x :: l)) as IH'.
  { apply IH. intros z Hz. apply Hcmp. apply elem_of_cons. by right. }
  rewrite (filter_cons _ y (sort_insert _ _ _)), IH'.
  rewrite !(filter_cons _ x), (filter_cons _ y l).
  destruct (decide (key x = t)), (decide (key y = t)); try done. lia.
Qed.

Lemma Array_sort_stable (t : Z) l :
  (∀ x y, x ∈ l → y ∈ l → comparefn x y = Some (key x - key y)%Z) →
  filter (λ z, key z = t) (Array_sort comparefn l)
  = filter (λ z, key z = t) l.
Proof.
  induction l as [|x l IH]; intros Hcmp; simpl; [done|].
  rewrite sort_insert_stable.
  - rewrite !(filter_cons _ x), IH; [done|].
    intros a b Ha Hb. apply Hcmp; apply elem_of_cons; auto.
  - intros y Hy. rewrite Array_sort_Permutation in Hy.
    apply Hcmp; apply elem_of_cons; auto.
Qed.

(** A list already in key order comes back as it is. *)
Lemma Array_sort_sorted_id l :
  (∀ x y, x ∈ l → y ∈ l → comparefn x y = Some (key x - key y)%Z) →
  StronglySorted (λ a b, key a ≤ key b)%Z l →
  Array_sort comparefn l = l.
Proof.
  intros Hcmp Hs. induction Hs as [|x l Hs IH Hall]; simpl; [done|].
  rewrite IH by (intros a b Ha Hb; apply Hcmp; apply elem_of_cons; auto).
  destruct l as [|y l]; simpl; [done|].
  assert (SortCompare comparefn x y = (key x - key y)%Z) as ->.
  { unfold SortCompare. rewrite Hcmp; [done| |]; apply elem_of_cons; auto.
    right. apply elem_of_cons. by left. }
  apply Forall_cons in Hall as [Hxy _]. rewrite decide_True; [done | lia].
Qed.

End SortFacts.

(* ---- strings: includes, split, join; indexOf ------------------------- *)

(** [s.includes(t)] on strings: [t] is a prefix of a suffix of [s]. *)
Fixpoint String_includes (s t : string) : bool :=
  String.prefix t s
  || match s with
     | EmptyString => false
     | String _ s' => String_includes s' t
     end.

(** [s.split(sep)] for a separator of one character. *)
Fixpoint split (sep : ascii) (s : string) : list string :=
  match s with
  | EmptyString => [EmptyString]
  | String c s' =>
      if bool_decide (c = sep) then EmptyString :: split sep s'
      else
        match split sep s' with
        | piece :: pieces => String c piece :: pieces
        | [] => [String c EmptyString]
        end
  end.

(** [l.join(sep)] *)
Fixpoint join (sep : string) (l : list string) : string :=
  match l with
  | [] => EmptyString
  | [x] => x
  | x :: l' => String.append x (String.append sep (join sep l'))
  end.

(** The character [c] occurs in [s]. *)
Fixpoint occurs (c : ascii) (s : string) : Prop :=
  match s with
  | EmptyString => False
  | String c' s' => c' = c ∨ occurs c s'
  end.

(** [l.indexOf(x)] *)
Fixpoint indexOf (l : list string) (x : string) : Z :=
  match l with
  | [] => (-1)%Z
  | y :: l' =>
      if decide (y = x) then 0%Z
      else
        let i := indexOf l' x in
        if decide (i = -1)%Z then (-1)%Z else (i + 1)%Z
  end.

Lemma prefix_empty s : String.prefix "" s = true.
Proof. by destruct s. Qed.

Lemma prefix_refl s : String.prefix s s = true.
Proof.
  induction s as [|c s IH]; simpl; [done|].
  by destruct (Ascii.ascii_dec c c).
Qed.


Lemma String_includes_refl s : String_includes s s = true.
Proof.
  destruct s as [|c s]; [done|].
  cbn [String_includes]. by rewrite prefix_refl.
Qed.



Lemma split_nonempty sep s : split sep s ≠ [].
Proof.
  destruct s as [|c s]; simpl; [done|].
  case_bool_decide; [done|]. by destruct (split sep s).
Qed.

Lemma append_String_assoc c s t :
  String c (String.append s t) = String.append (String c s) t.
Proof. done. Qed.

Lemma join_cons sep x y l :
  join sep (x :: y :: l)
  = String.append x (String.append sep (join sep (y :: l))).
Proof. done. Qed.

(** Joining the pieces of a string gives the string back. *)
Lemma join_split sep s : join (String sep "") (split sep s) = s.
Proof.
  induction s as [|c s IH]; [done|]. cbn [split].
  pose proof (split_nonempty sep s) as Hne.
  case_bool_decide as Hc.
  - destruct (split sep s) as [|piece pieces]; [done|].
    rewrite join_cons, IH. simpl. by rewrite Hc.
  - destruct (split sep s) as [|piece [|piece' pieces]]; [done|..].
    + simpl in *. by rewrite IH.
    + rewrite join_cons in *. rewrite <- append_String_assoc. by rewrite IH.
Qed.

Lemma split_no_sep sep s : ¬ occurs sep s → split sep s = [s].
Proof.
  induction s as [|c s IH]; simpl; [done|]. intros Hno.
  rewrite bool_decide_eq_false_2 by tauto. rewrite IH by tauto. done.
Qed.

Lemma split_append sep x s :
  ¬ occurs sep x →
  split sep (String.append x (String sep s)) = x :: split sep s.
Proof.
  induction x as [|c x IH]; simpl.
  - intros _. by rewrite bool_decide_eq_true_2.
  - intros Hno. rewrite bool_decide_eq_false_2 by tauto.
    rewrite IH by tauto. done.
Qed.

(** Splitting a join gives the pieces back, when there is one at least
    and none of them holds the separator. *)
Lemma split_join sep l :
  l ≠ [] → Forall (λ x, ¬ occurs sep x) l →
  split sep (join (String sep "") l) = l.
Proof.
  induction l as [|x [|y l] IH]; intros Hne Hall; [done|..].
  - simpl. apply split_no_sep. by apply Forall_inv in Hall.
  - rewrite join_cons. apply Forall_cons in Hall as [Hx Hall].
    change (String.append (String sep "") ?t) with (String sep t).
    rewrite split_append by done. f_equal. by apply IH.
Qed.

(** No piece of a split holds the separator. *)
Lemma split_pieces sep s : Forall (λ x, ¬ occurs sep x) (split sep s).
Proof.
  induction s as [|c s IH]; simpl.
  { repeat constructor. tauto. }
  case_bool_decide as Hc.
  - constructor; [simpl; tauto | done].
  - destruct (split sep s) as [|piece pieces].
    + repeat constructor. simpl. tauto.
    + apply Forall_cons in IH as [Hp Hps].
      constructor; [simpl; tauto | done].
Qed.

(** A join of two pieces or more holds the separator, so it is not
    empty. *)
Lemma join_two_nonempty sep x y l : join (String sep "") (x :: y :: l) ≠ "".
Proof. rewrite join_cons. by destruct x. Qed.

Lemma indexOf_range l x :
  (indexOf l x = (-1)%Z ∧ x ∉ l) ∨
  ((0 ≤ indexOf l x < Z.of_nat (length l))%Z ∧ x ∈ l).
Proof.
  induction l as [|y l IH]; simpl.
  { left. split; [done | apply not_elem_of_nil]. }
  case_decide as Hy.
  { right. split; [lia | subst; apply elem_of_cons; by left]. }
  destruct IH as [[Hi Hnin]|[Hi Hin]].
  - left. rewrite decide_True by done. split; [done|].
    rewrite elem_of_cons. intros [->|Hin]; [by apply Hy | by apply Hnin].
  - right. rewrite decide_False by lia. split; [lia|].
    apply elem_of_cons. by right.
Qed.

Section SortBy.
Context {A : Type} (comparefn : A → A → option Z) (key : A → Z).

(** A comparator that orders as an integer key does: what it returns is
    at most zero exactly when the key of the first is at most the key
    of the second. *)
Definition ordersBy (l : list A) : Prop :=
  ∀ x y, x ∈ l → y ∈ l → (SortCompare comparefn x y ≤ 0 ↔ key x ≤ key y)%Z.

Lemma ordersBy_cons x l : ordersBy (x :: l) → ordersBy l.
Proof. intros Hcmp a b Ha Hb. apply Hcmp; apply elem_of_cons; auto. Qed.

Lemma Array_sort_sorted_by l :
  ordersBy l →
  StronglySorted (λ a b, key a ≤ key b)%Z (Array_sort comparefn l).
Proof.
  induction l as [|x l IH]; intros Hcmp; simpl; [constructor|].
  specialize (IH (ordersBy_cons _ _ Hcmp)).
  assert (∀ y, y ∈ Array_sort comparefn l →
               (SortCompare comparefn x y ≤ 0 ↔ key x ≤ key y)%Z) as Hx.
  { intros y Hy. rewrite Array_sort_Permutation in Hy.
    apply Hcmp; apply elem_of_cons; auto. }
  induction IH as [|y l' Hs IH' Hall]; simpl.
  { repeat constructor. }
  pose proof (Hx y ltac:(apply elem_of_cons; auto)) as Hxy.
  case_decide as Hle.
  - constructor; [by constructor|].
    constructor; [tauto|]. eapply Forall_impl; [exact Hall|]. simpl. lia.
  - constructor.
    + apply IH'. intros z Hz. apply Hx. apply elem_of_cons. by right.
    + rewrite sort_insert_Permutation. constructor; [lia | done].
Qed.

Lemma Array_sort_stable_by (t : Z) l :
  ordersBy l →
  filter (λ z, key z = t) (Array_sort comparefn l)
  = filter (λ z, key z = t) l.
Proof.
  induction l as [|x l IH]; intros Hcmp; simpl; [done|].
  rewrite (filter_cons _ x l), <- (IH (ordersBy_cons _ _ Hcmp)).
  assert (∀ y, y ∈ Array_sort comparefn l →
               (SortCompare comparefn x y ≤ 0 ↔ key x ≤ key y)%Z) as Hx.
  { intros y Hy. rewrite Array_sort_Permutation in Hy.
    apply Hcmp; apply elem_of_cons; auto. }
  clear IH Hcmp. induction (Array_sort comparefn l) as [|y l' IH]; [done|].
  cbn [sort_insert].
  pose proof (Hx y ltac:(apply elem_of_cons; auto)) as Hxy.
  destruct (decide (SortCompare comparefn x y ≤ 0)%Z) as [Hle|Hle];
    [by rewrite (filter_cons _ x)|].
  rewrite (filter_cons _ y (sort_insert _ _ _)), IH.
  - rewrite (filter_cons _ y l').
    destruct (decide (key x = t)), (decide (key y = t)); try done. lia.
  - intros z Hz. apply Hx. apply elem_of_cons. by right.
Qed.

End SortBy.

End JS.

(* --------------------------------------------------------------------- *)
(* TimelinePage: the category filter                                     *)
(* --------------------------------------------------------------------- *)
Module CategoryFilter.
Section WithSentinel.

(** [ALL_EVENTS_OPTION.id] is imported from config/dropdown; the page
    only compares category ids against it, so it is kept abstract. *)
Variable ALL_EVENTS_OPTION_id : string.

(** [useState([ALL_EVENTS_OPTION.id])] *)
Definition initialSelectedCategories : list string :=
  [ALL_EVENTS_OPTION_id].

(** The updater passed to [setSelectedCategories] by
    [handleCategorySelect(categoryId)], applied to the previous
    selection [prev]. *)
Definition handleCategorySelect (categoryId : string) (prev : list string)
  : list string :=
  if decide (categoryId = ALL_EVENTS_OPTION_id) then [ALL_EVENTS_OPTION_id]
  else if JS.includes prev ALL_EVENTS_OPTION_id then [categoryId]
  else
    let newCategories :=
      if JS.includes prev categoryId
      then filter (λ id, id ≠ categoryId) prev
      else prev ++ [categoryId] in
    if decide (length newCategories = 0%nat)
    then [ALL_EVENTS_OPTION_id]
    else newCategories.

(** The selection after a sequence of clicks on the dropdown, oldest
    click first. *)
Definition selectAll (clicks : list string) (start : list string)
  : list string :=
  foldl (λ sel c, handleCategorySelect c sel) start clicks.

(** What the page relies on when it renders the filter: the selection
    is never empty and the sentinel never sits next to a category. *)
Definition wellFormedSelection (sel : list string) : Prop :=
  sel ≠ [] ∧
  (ALL_EVENTS_OPTION_id ∈ sel → sel = [ALL_EVENTS_OPTION_id]).

Lemma wellFormed_initial : wellFormedSelection initialSelectedCategories.
Proof. split; [discriminate | done]. Qed.

Lemma handleCategorySelect_sentinel prev :
  handleCategorySelect ALL_EVENTS_OPTION_id prev = [ALL_EVENTS_OPTION_id].
Proof. unfold handleCategorySelect. by rewrite decide_True. Qed.

Lemma handleCategorySelect_from_all c prev :
  c ≠ ALL_EVENTS_OPTION_id →
  ALL_EVENTS_OPTION_id ∈ prev →
  handleCategorySelect c prev = [c].
Proof.
  intros Hc Hin. unfold handleCategorySelect.
  rewrite decide_False by done.
  apply JS.includes_true in Hin. by rewrite Hin.
Qed.

Lemma handleCategorySelect_last c :
  c ≠ ALL_EVENTS_OPTION_id →
  handleCategorySelect c [c] = [ALL_EVENTS_OPTION_id].
Proof.
  intros Hc. unfold handleCategorySelect.
  rewrite decide_False by done.
  assert (JS.includes [c] ALL_EVENTS_OPTION_id = false) as ->.
  { apply JS.includes_false. rewrite list_elem_of_singleton. congruence. }
  assert (JS.includes [c] c = true) as ->.
  { apply JS.includes_true. by apply list_elem_of_singleton. }
  rewrite filter_cons_False by (intros H; by apply H).
  by rewrite filter_nil.
Qed.

(** One click leaves a well-formed selection, whatever it was before. *)
Lemma handleCategorySelect_wellFormed c prev :
  wellFormedSelection (handleCategorySelect c prev).
Proof.
  unfold handleCategorySelect.
  destruct (decide (c = ALL_EVENTS_OPTION_id)) as [->|Hc].
  { split; [discriminate | done]. }
  destruct (JS.includes prev ALL_EVENTS_OPTION_id) eqn:Hall.
  { split; [discriminate |].
    intros Hin%list_elem_of_singleton. congruence. }
  apply JS.includes_false in Hall.
  match goal with |- context [decide (length ?n = 0%nat)] =>
    destruct (decide (length n = 0%nat)) as [Hlen|Hlen] end.
  { split; [discriminate | done]. }
  split.
  - intros Hnil. apply Hlen. by rewrite Hnil.
  - intros Hin. exfalso.
    destruct (JS.includes prev c).
    + apply list_elem_of_filter in Hin as [_ Hin]. done.
    + apply elem_of_app in Hin as [Hin|Hin%list_elem_of_singleton]; [done|].
      congruence.
Qed.

(** C5. The category filter is the transition function of the
    specification: choosing the "all" sentinel gives the singleton
    sentinel selection from any state; choosing a category while the
    sentinel is selected gives the singleton of that category; toggling
    off the last selected category gives the sentinel selection again;
    and the sentinel chosen after any category click restores the initial
    default selection. *)
Theorem handleCategorySelect_transitions :
  (∀ prev,
     handleCategorySelect ALL_EVENTS_OPTION_id prev = [ALL_EVENTS_OPTION_id]) ∧
  (∀ c prev,
     c ≠ ALL_EVENTS_OPTION_id → ALL_EVENTS_OPTION_id ∈ prev →
     handleCategorySelect c prev = [c]) ∧
  (∀ c,
     c ≠ ALL_EVENTS_OPTION_id →
     handleCategorySelect c [c] = [ALL_EVENTS_OPTION_id]) ∧
  (∀ c prev,
     handleCategorySelect ALL_EVENTS_OPTION_id (handleCategorySelect c prev)
     = initialSelectedCategories).
Proof.
  repeat split.
  - apply handleCategorySelect_sentinel.
  - apply handleCategorySelect_from_all.
  - apply handleCategorySelect_last.
  - intros c prev. apply handleCategorySelect_sentinel.
Qed.

(** C10. From the initial selection, after any finite sequence of
    clicks the selection is not empty, and if it contains the "all"
    sentinel it is exactly the singleton sentinel: the sentinel never
    shares the list with a category id. *)
Theorem selectAll_wellFormed (clicks : list string) :
  selectAll clicks initialSelectedCategories ≠ [] ∧
  (ALL_EVENTS_OPTION_id ∈ selectAll clicks initialSelectedCategories →
   selectAll clicks initialSelectedCategories = [ALL_EVENTS_OPTION_id] ∧
   ∀ c, c ∈ selectAll clicks initialSelectedCategories →
        c = ALL_EVENTS_OPTION_id).
Proof.
  assert (wellFormedSelection (selectAll clicks initialSelectedCategories))
    as [Hne Hall].
  { induction clicks as [|c clicks _] using rev_ind.
    - apply wellFormed_initial.
    - unfold selectAll. rewrite foldl_snoc.
      apply handleCategorySelect_wellFormed. }
  split; [done|]. intros Hin. split; [by apply Hall|].
  intros c. rewrite (Hall Hin). by intros ?%list_elem_of_singleton.
Qed.

(* ---- toggling -------------------------------------------------------- *)

Lemma filter_ne_fresh (c : string) (l : list string) :
  c ∉ l → filter (λ id, id ≠ c) l = l.
Proof.
  intros Hc. apply JS.filter_all. apply Forall_forall. by intros x Hx ->.
Qed.

Lemma handleCategorySelect_specific c prev :
  c ≠ ALL_EVENTS_OPTION_id → ALL_EVENTS_OPTION_id ∉ prev →
  handleCategorySelect c prev
  = if decide (c ∈ prev) then
      if decide (filter (λ id, id ≠ c) prev = [])
      then [ALL_EVENTS_OPTION_id] else filter (λ id, id ≠ c) prev
    else prev ++ [c].
Proof.
  intros Hc Hall. unfold handleCategorySelect.
  rewrite decide_False by done.
  apply JS.includes_false in Hall. rewrite Hall. unfold JS.includes.
  destruct (decide (c ∈ prev)) as [Hin|Hin].
  - rewrite bool_decide_eq_true_2 by done.
    destruct (filter (λ id, id ≠ c) prev) eqn:Hf; simpl; done.
  - rewrite bool_decide_eq_false_2 by done.
    rewrite decide_False; [done|]. rewrite length_app. simpl. lia.
Qed.

(** X1. Selecting a category that is not selected and clicking it again
    gives back the selection as it was, also when that was the "all"
    sentinel. *)
Theorem select_then_deselect c prev :
  c ≠ ALL_EVENTS_OPTION_id →
  wellFormedSelection prev →
  c ∉ prev →
  handleCategorySelect c (handleCategorySelect c prev) = prev.
Proof.
  intros Hc [Hne Hwf] Hfresh.
  destruct (decide (ALL_EVENTS_OPTION_id ∈ prev)) as [Hall|Hall].
  - rewrite (Hwf Hall).
    rewrite (handleCategorySelect_from_all c [ALL_EVENTS_OPTION_id]);
      [|done|by apply list_elem_of_singleton].
    by apply handleCategorySelect_last.
  - rewrite (handleCategorySelect_specific c prev) by done.
    rewrite decide_False by done.
    rewrite handleCategorySelect_specific; [|done|].
    + rewrite decide_True by (apply elem_of_app; right; by apply list_elem_of_singleton).
      rewrite filter_app, filter_ne_fresh by done.
      rewrite filter_cons_False by (intros H; by apply H).
      rewrite filter_nil, app_nil_r. by rewrite decide_False.
    + intros [Hin|Hin%list_elem_of_singleton]%elem_of_app; [done|].
      by apply Hc.
Qed.

(** X2. A click on a category changes the selection of that category
    only: on a selection without the sentinel, every other category is
    selected after the click exactly when it was before, and the clicked
    one exactly when it was not. *)
Theorem click_toggles_one c d prev :
  c ≠ ALL_EVENTS_OPTION_id →
  ALL_EVENTS_OPTION_id ∉ prev →
  (c ∈ handleCategorySelect c prev ↔ c ∉ prev) ∧
  (d ≠ c → d ≠ ALL_EVENTS_OPTION_id →
   (d ∈ handleCategorySelect c prev ↔ d ∈ prev)).
Proof.
  intros Hc Hall. rewrite handleCategorySelect_specific by done.
  destruct (decide (c ∈ prev)) as [Hin|Hin].
  - destruct (decide (filter (λ id, id ≠ c) prev = [])) as [Hnil|Hnil].
    + split.
      * rewrite list_elem_of_singleton. split; [done | by intros []].
      * intros Hd Hd'. rewrite list_elem_of_singleton. split; [done|].
        intros Hdin. exfalso.
        assert (d ∈ filter (λ id, id ≠ c) prev) as Hf
          by by apply list_elem_of_filter.
        rewrite Hnil in Hf. by apply elem_of_nil in Hf.
    + split.
      * rewrite list_elem_of_filter. split; [by intros [H _] | by intros []].
      * intros Hd _. rewrite list_elem_of_filter. tauto.
  - split.
    + rewrite elem_of_app, list_elem_of_singleton. tauto.
    + intros Hd _. rewrite elem_of_app, list_elem_of_singleton. tauto.
Qed.

Lemma handleCategorySelect_NoDup c prev :
  NoDup prev → NoDup (handleCategorySelect c prev).
Proof.
  intros Hnd. unfold handleCategorySelect.
  destruct (decide (c = ALL_EVENTS_OPTION_id)); [apply NoDup_singleton|].
  destruct (JS.includes prev ALL_EVENTS_OPTION_id); [apply NoDup_singleton|].
  match goal with |- context [decide (length ?n = 0%nat)] =>
    destruct (decide (length n = 0%nat)) end; [apply NoDup_singleton|].
  destruct (JS.includes prev c) eqn:Hin.
  - by apply NoDup_filter.
  - apply JS.includes_false in Hin. apply NoDup_app. split; [done|].
    split; [|apply NoDup_singleton].
    intros x Hx ->%list_elem_of_singleton. done.
Qed.

(** X3. From the initial selection, no sequence of clicks selects a
    category twice: the list never holds the same id at two places. *)
Theorem selectAll_NoDup (clicks : list string) :
  NoDup (selectAll clicks initialSelectedCategories).
Proof.
  induction clicks as [|c clicks IH] using rev_ind.
  - apply NoDup_singleton.
  - unfold selectAll. rewrite foldl_snoc. by apply handleCategorySelect_NoDup.
Qed.

End WithSentinel.

(** The transitions on the category ids of a running page. *)
Lemma handleCategorySelect_transitions_witness :
  handleCategorySelect "all" "tournaments" ["all"] = ["tournaments"] ∧
  handleCategorySelect "all" "tournaments" ["tournaments"] = ["all"] ∧
  handleCategorySelect "all" "all"
    (handleCategorySelect "all" "tournaments" ["records"; "updates"])
  = initialSelectedCategories "all".
Proof.
  destruct (handleCategorySelect_transitions "all") as (_ & H2 & H3 & H4).
  split; [|split].
  - apply H2; [discriminate | by apply list_elem_of_singleton].
  - apply H3. discriminate.
  - apply H4.
Defined.

Lemma select_then_deselect_witness :
  handleCategorySelect "all" "records"
    (handleCategorySelect "all" "records" ["updates"; "tournaments"])
  = ["updates"; "tournaments"].
Proof.
  apply (select_then_deselect "all" "records").
  - discriminate.
  - split; [discriminate|].
    intros Hin. apply (bool_decide_pack _) in Hin. by vm_compute in Hin.
  - apply (bool_decide_unpack _). reflexivity.
Defined.

Lemma click_toggles_one_witness :
  "updates" ∈ handleCategorySelect "all" "records" ["updates"; "records"].
Proof.
  destruct (click_toggles_one "all" "records" "updates" ["updates"; "records"])
    as [_ Hother].
  - discriminate.
  - apply (bool_decide_unpack _). reflexivity.
  - apply Hother; [discriminate | discriminate |].
    apply (bool_decide_unpack _). reflexivity.
Defined.

End CategoryFilter.

(* --------------------------------------------------------------------- *)
(* EventBox: dragging an event card to another column                    *)
(* --------------------------------------------------------------------- *)
Module EventBox.

Record MouseEvent := { clientX : Q; clientY : Q }.

(** [eventBoxRef.current.getBoundingClientRect()] *)
Record DOMRect := { rect_left : Q; rect_top : Q }.

Record Props := {
  event_id : string;
  position : Q;
  column : Z;
  isDraggingEnabled : bool
}.

Record State := {
  isDragging : bool;
  startX : Q;
  startY : Q;
  currentX : Q;
  currentY : Q
}.

(** One call [onUpdateColumn(eventId, newColumn, position)]. *)
Record UpdateColumnCall := {
  call_eventId : string;
  call_newColumn : Z;
  call_position : Q
}.

(** Modelled from the spec: the stored record of a [TimelineEvent], whose
    declaration in data/events is not among the sources; section 3 gives
    it a title, a date, a category and a column. *)
Record StoredEvent := {
  title : string;
  date : string;
  category : string;
  stored_column : Z
}.

Definition baseOffset : Q := 210.
Definition columnWidth : Q := 220.
Definition max_columns : Z := 20.

(** Where the left edge of column [c] is: the value of [leftPosition]
    for that column. *)
Definition columnLeft (c : Z) : Q := baseOffset + inject_Z c * columnWidth.

Definition initialState : State :=
  {| isDragging := false; startX := 0; startY := 0;
     currentX := 0; currentY := 0 |}.

(** Modelled from the spec: [onUpdateColumn] is the prop handed down by
    TimelineGrid, which is not among the sources; section 4.1 has it
    write the new column back to the stored record of the event, and
    section 8 has every other event keep its column. *)
Definition onUpdateColumn (call : UpdateColumnCall)
    (store : gmap string StoredEvent) : gmap string StoredEvent :=
  alter (λ ev, {| title := title ev;
                  date := date ev;
                  category := category ev;
                  stored_column := call_newColumn call |})
        (call_eventId call) store.

Definition commit (calls : list UpdateColumnCall)
    (store : gmap string StoredEvent) : gmap string StoredEvent :=
  foldl (λ s call, onUpdateColumn call s) store calls.

(** A later load of the column of event [id]. *)
Definition loadColumn (id : string) (store : gmap string StoredEvent)
  : option Z :=
  stored_column <$> store !! id.

Section WithDouble.

(** The numbers of the component are doubles. A finite double is a
    rational, and [fl x] is the double that the machine stores where the
    exact result of a subtraction or a division is [x]: the double
    nearest to [x]. The coordinates of a pointer event and of the
    rectangle of a card are finite doubles. *)
Variable fl : Q → Q.

(** [ref] is [eventBoxRef.current]: the rectangle of the mounted card, or
    [None] while the card is not mounted. *)
Definition handleMouseDown (props : Props) (ref : option DOMRect)
    (e : MouseEvent) (st : State) : State :=
  match ref with
  | Some rect =>
      if isDraggingEnabled props then
        {| isDragging := true;
           startX := fl (clientX e - rect_left rect);
           startY := fl (clientY e - rect_top rect);
           currentX := rect_left rect;
           currentY := rect_top rect |}
      else st
  | None => st
  end.

Definition handleMouseMove (e : MouseEvent) (st : State) : State :=
  if isDragging st then
    {| isDragging := isDragging st;
       startX := startX st;
       startY := startY st;
       currentX := fl (clientX e - startX st);
       currentY := fl (clientY e - startY st) |}
  else st.

(** The next state and the calls of [onUpdateColumn] made on the way. *)
Definition handleMouseUp (props : Props) (e : MouseEvent) (st : State)
  : State * list UpdateColumnCall :=
  if isDragging st then
    let finalX := fl (clientX e - startX st) in
    let relativeX := fl (finalX - baseOffset) in
    let newColumn := JS.Math_round (fl (relativeX / columnWidth)) in
    let boundedColumn := Z.max 0 (Z.min newColumn 19) in
    ({| isDragging := false;
        startX := startX st;
        startY := startY st;
        currentX := currentX st;
        currentY := currentY st |},
     if decide (boundedColumn ≠ column props)
     then [ {| call_eventId := event_id props;
               call_newColumn := boundedColumn;
               call_position := position props |} ]
     else [])
  else (st, []).

(** The quotient that [handleMouseUp] rounds for a card released with
    its left edge at [x]: [(x - baseOffset) / columnWidth] as the machine
    computes it. *)
Definition columnQuotient (x : Q) : Q := fl (fl (x - baseOffset) / columnWidth).

(** The column index that the release of a card at [x] rounds to. *)
Definition nearestColumn (x : Q) : Z := JS.Math_round (columnQuotient x).

(** The column a card is over when released with its left edge at [x]. *)
Definition columnUnder (x : Q) : Z :=
  Z.max 0 (Z.min (nearestColumn x) (max_columns - 1)).

(** Releasing the mouse over the page: the card's next state and the
    store after the calls it made. *)
Definition release (props : Props) (e : MouseEvent) (st : State)
    (store : gmap string StoredEvent) : State * gmap string StoredEvent :=
  ((handleMouseUp props e st).1, commit (handleMouseUp props e st).2 store).

Lemma columnUnder_range (x : Q) : (0 ≤ columnUnder x ≤ max_columns - 1)%Z.
Proof. unfold columnUnder, max_columns. lia. Qed.

(** What a release does, in terms of the column under the card. *)
Lemma handleMouseUp_dragging props e st :
  isDragging st = true →
  (handleMouseUp props e st).2
  = if decide (columnUnder (fl (clientX e - startX st)) ≠ column props)
    then [ {| call_eventId := event_id props;
              call_newColumn := columnUnder (fl (clientX e - startX st));
              call_position := position props |} ]
    else [].
Proof. intros Hdrag. unfold handleMouseUp. by rewrite Hdrag. Qed.

Lemma handleMouseUp_calls props e st call :
  call ∈ (handleMouseUp props e st).2 →
  isDragging st = true ∧
  call = {| call_eventId := event_id props;
            call_newColumn := columnUnder (fl (clientX e - startX st));
            call_position := position props |} ∧
  columnUnder (fl (clientX e - startX st)) ≠ column props.
Proof.
  destruct (isDragging st) eqn:Hdrag.
  - rewrite handleMouseUp_dragging by done.
    case_decide as Hne; [|by intros ?%elem_of_nil].
    intros ->%list_elem_of_singleton. done.
  - unfold handleMouseUp. rewrite Hdrag. by intros ?%elem_of_nil.
Qed.

Lemma handleMouseDown_starts props rect e st :
  isDraggingEnabled props = true →
  isDragging (handleMouseDown props (Some rect) e st) = true ∧
  startX (handleMouseDown props (Some rect) e st)
  = fl (clientX e - rect_left rect).
Proof. intros H. unfold handleMouseDown. by rewrite H. Qed.

(** C3. Whatever the release coordinate, the column handed to
    [onUpdateColumn] is the quotient that the handler computes from it,
    [(finalX - baseOffset) / columnWidth] in the arithmetic of the
    machine, rounded to the nearest integer and clamped into
    [0, max_columns - 1]: an integer from 0 to 19. *)
Theorem handleMouseUp_column_bounded props e st call :
  call ∈ (handleMouseUp props e st).2 →
  let finalX := fl (clientX e - startX st) in
  let relativeX := fl (finalX - baseOffset) in
  let quotient := fl (relativeX / columnWidth) in
  (Qabs (inject_Z (JS.Math_round quotient) - quotient) <= 1 # 2)%Q ∧
  call_newColumn call
  = Z.max 0 (Z.min (JS.Math_round quotient) (max_columns - 1)) ∧
  (0 ≤ call_newColumn call ≤ 19)%Z.
Proof.
  intros Hin finalX relativeX quotient.
  apply handleMouseUp_calls in Hin as (_ & -> & _).
  split; [apply JS.Math_round_nearest|]. split; [reflexivity|].
  exact (columnUnder_range finalX).
Qed.

(** C4 (amended). A card that is being dragged and is released over
    column [c] calls [onUpdateColumn] once, for its own event id and
    with [c], when [c] is not the column it is rendered in, and not at
    all when it is. After a call a load of that event gives [c], and
    without one the store is as it was; every other stored event keeps
    its record in both cases. *)
Theorem release_commits_own_column props e st store :
  isDragging st = true →
  let c := columnUnder (fl (clientX e - startX st)) in
  let store' := (release props e st store).2 in
  (handleMouseUp props e st).2
  = (if decide (c ≠ column props)
     then [ {| call_eventId := event_id props;
               call_newColumn := c;
               call_position := position props |} ]
     else []) ∧
  (c ≠ column props →
   loadColumn (event_id props) store'
   = match store !! event_id props with Some _ => Some c | None => None end) ∧
  (c = column props → store' = store) ∧
  (∀ id, id ≠ event_id props → store' !! id = store !! id).
Proof.
  intros Hdrag c store'. subst store'. unfold release.
  rewrite (handleMouseUp_dragging props e st Hdrag). fold c.
  split; [done|]. destruct (decide (c ≠ column props)) as [Hne|Heq]; simpl.
  - split; [|split; [done|]].
    + intros _. unfold loadColumn, onUpdateColumn. simpl.
      rewrite lookup_alter_eq. by destruct (store !! event_id props).
    + intros id Hid. unfold onUpdateColumn. simpl. by rewrite lookup_alter_ne.
  - split; [done|]. split; done.
Qed.

(* ---- the whole gesture ---------------------------------------------- *)

(** The pointer events that reach the card: a press on the card, with
    the rectangle of the card when it is mounted, then moves and a
    release anywhere in the window. *)
Inductive Pointer :=
  | mousedown (ref : option DOMRect) (e : MouseEvent)
  | mousemove (e : MouseEvent)
  | mouseup (e : MouseEvent).

(** One pointer event: the next state of the card, and the calls of
    [onUpdateColumn] so far with those of this event at the end. *)
Definition pointer (props : Props) (acc : State * list UpdateColumnCall)
    (p : Pointer) : State * list UpdateColumnCall :=
  match p with
  | mousedown ref e => (handleMouseDown props ref e acc.1, acc.2)
  | mousemove e => (handleMouseMove e acc.1, acc.2)
  | mouseup e =>
      ((handleMouseUp props e acc.1).1, acc.2 ++ (handleMouseUp props e acc.1).2)
  end.

Definition gesture (props : Props) (ps : list Pointer) (st : State)
  : State * list UpdateColumnCall :=
  foldl (pointer props) (st, []) ps.

(** The moves of a drag, one after the other. *)
Definition moves (es : list MouseEvent) (st : State) : State :=
  foldl (λ s e, handleMouseMove e s) st es.

(** The coordinates of a page stay below [2^20] pixels; a result of
    size [2^22] at most is stored with an error of [2^-30] at most, half
    the gap between neighbouring doubles of that size. *)
Definition coordinate_bound : Q := 1048576.
Definition fl_range : Q := 4194304.
Definition fl_tolerance : Q := 1 # 1073741824.

Hypothesis fl_near :
  ∀ x, (Qabs x <= fl_range)%Q → (Qabs (fl x - x) <= fl_tolerance)%Q.

Lemma fl_near_bounds x :
  (- fl_range <= x)%Q → (x <= fl_range)%Q →
  (x - fl_tolerance <= fl x)%Q ∧ (fl x <= x + fl_tolerance)%Q.
Proof.
  intros Hlo Hhi.
  assert (Qabs x <= fl_range)%Q as Hx
    by (apply Qabs_Qle_condition; split; lra).
  apply fl_near, Qabs_Qle_condition in Hx as [H1 H2]. split; lra.
Qed.

Lemma Qfloor_unique (x : Q) (n : Z) :
  (inject_Z n <= x)%Q → (x < inject_Z (n + 1))%Q → Qfloor x = n.
Proof.
  intros Hlo Hhi.
  pose proof (Qfloor_resp_le _ _ Hlo) as H1. rewrite Qfloor_Z in H1.
  pose proof (Qfloor_le x) as H2.
  assert (inject_Z (Qfloor x) < inject_Z (n + 1))%Q as H3
    by (eapply Qle_lt_trans; eassumption).
  rewrite <- Zlt_Qlt in H3. lia.
Qed.

(** A card pressed with its left edge at [left] and released after the
    pointer has gone from [down] to [up] rounds to the column whose left
    edge is within 109 pixels of [left + (up - down)]: the rounding of
    the machine does not reach the last pixel before a tie. *)
Lemma nearestColumn_release (target : Z) (left down up : Q) :
  (- coordinate_bound <= left)%Q → (left <= coordinate_bound)%Q →
  (- coordinate_bound <= down)%Q → (down <= coordinate_bound)%Q →
  (- coordinate_bound <= up)%Q → (up <= coordinate_bound)%Q →
  (columnLeft target - 109 <= left + (up - down))%Q →
  (left + (up - down) <= columnLeft target + 109)%Q →
  nearestColumn (fl (up - fl (down - left))) = target.
Proof.
  unfold coordinate_bound, columnLeft, baseOffset, columnWidth.
  intros Hl1 Hl2 Hd1 Hd2 Hu1 Hu2 Hlo Hhi.
  unfold nearestColumn, columnQuotient, baseOffset, columnWidth.
  pose proof (fl_near_bounds (down - left)) as Hs.
  unfold fl_range, fl_tolerance in *.
  destruct Hs as [Hs1 Hs2]; [lra | lra |].
  set (s := fl (down - left)) in *. clearbody s.
  destruct (fl_near_bounds (up - s)) as [Hf1 Hf2];
    [unfold fl_range; lra | unfold fl_range; lra |].
  unfold fl_tolerance in *.
  set (f := fl (up - s)) in *. clearbody f.
  destruct (fl_near_bounds (f - 210)) as [Hr1 Hr2];
    [unfold fl_range; lra | unfold fl_range; lra |].
  unfold fl_tolerance in *.
  set (r := fl (f - 210)) in *. clearbody r.
  assert (r / 220 * 220 == r)%Q as Hq by field.
  set (q0 := (r / 220)%Q) in *. clearbody q0.
  destruct (fl_near_bounds q0) as [Hq1 Hq2];
    [unfold fl_range; lra | unfold fl_range; lra |].
  unfold fl_tolerance in *.
  set (q := fl q0) in *. clearbody q.
  set (t := inject_Z target) in *.
  unfold JS.Math_round. apply Qfloor_unique.
  - fold t. lra.
  - rewrite inject_Z_plus. change (inject_Z 1) with 1%Q. fold t. lra.
Qed.

(** X4. A drag moves the card by whole columns. With dragging enabled,
    coordinates below [2^20] pixels and a machine that rounds to the
    nearest double: a card pressed with its left edge at [rect.left]
    and released after the pointer has moved by [d] pixels, so that its
    left edge is within 109 pixels of the left edge of a column, is
    reported in that column, clamped to 0..19, and only when that is not
    the column it is rendered in. *)
Theorem drag_moves_whole_columns props rect down up st (target : Z) :
  isDraggingEnabled props = true →
  (Qabs (rect_left rect) <= coordinate_bound)%Q →
  (Qabs (clientX down) <= coordinate_bound)%Q →
  (Qabs (clientX up) <= coordinate_bound)%Q →
  (Qabs (rect_left rect + (clientX up - clientX down) - columnLeft target)
   <= 109)%Q →
  let bounded := Z.max 0 (Z.min target 19) in
  (handleMouseUp props up (handleMouseDown props (Some rect) down st)).2
  = if decide (bounded ≠ column props)
    then [ {| call_eventId := event_id props;
              call_newColumn := bounded;
              call_position := position props |} ]
    else [].
Proof.
  intros Hen [Hl1 Hl2]%Qabs_Qle_condition [Hd1 Hd2]%Qabs_Qle_condition
    [Hu1 Hu2]%Qabs_Qle_condition [Hlo Hhi]%Qabs_Qle_condition bounded.
  destruct (handleMouseDown_starts props rect down st Hen) as [Hdrag Hstart].
  rewrite handleMouseUp_dragging, Hstart by done.
  unfold columnUnder.
  rewrite (nearestColumn_release target) by (done || lra).
  reflexivity.
Qed.

(** X5. A card in one of the columns 0 to 19, pressed where that column
    is and released with the pointer at most 109 pixels away
    horizontally, stays where it is: [onUpdateColumn] is not called. *)
Theorem short_drag_keeps_column props rect down up st :
  isDraggingEnabled props = true →
  (0 ≤ column props ≤ 19)%Z →
  (rect_left rect == columnLeft (column props))%Q →
  (Qabs (clientX down) <= coordinate_bound)%Q →
  (Qabs (clientX up) <= coordinate_bound)%Q →
  (Qabs (clientX up - clientX down) <= 109)%Q →
  (handleMouseUp props up (handleMouseDown props (Some rect) down st)).2 = [].
Proof.
  intros Hen Hcol Hleft [Hd1 Hd2]%Qabs_Qle_condition
    [Hu1 Hu2]%Qabs_Qle_condition [Hlo Hhi]%Qabs_Qle_condition.
  destruct (handleMouseDown_starts props rect down st Hen) as [Hdrag Hstart].
  rewrite handleMouseUp_dragging, Hstart by done.
  unfold columnUnder.
  assert (0 <= inject_Z (column props) <= 19)%Q as [Hc1 Hc2].
  { split; [change 0%Q with (inject_Z 0) | change 19%Q with (inject_Z 19)];
      rewrite <- Zle_Qle; lia. }
  rewrite (nearestColumn_release (column props)).
  - rewrite decide_False; [done|]. unfold max_columns. lia.
  - rewrite Hleft. unfold columnLeft, baseOffset, columnWidth, coordinate_bound.
    lra.
  - rewrite Hleft. unfold columnLeft, baseOffset, columnWidth, coordinate_bound.
    lra.
  - done.
  - done.
  - done.
  - done.
  - rewrite Hleft. lra.
  - rewrite Hleft. lra.
Qed.

(** X6. While dragging is switched off, no sequence of presses, moves
    and releases starts a drag or calls [onUpdateColumn]. *)
Theorem no_drag_when_disabled props ps st :
  isDraggingEnabled props = false →
  isDragging st = false →
  gesture props ps st = (st, []).
Proof.
  intros Hoff Hst. unfold gesture.
  induction ps as [|p ps IH] using rev_ind; [done|].
  rewrite foldl_snoc, IH. destruct p as [[rect|] e|e|e]; simpl.
  - unfold handleMouseDown. by rewrite Hoff.
  - done.
  - unfold handleMouseMove. by rewrite Hst.
  - unfold handleMouseUp. by rewrite Hst.
Qed.

Lemma moves_keeps es st :
  isDragging (moves es st) = isDragging st ∧
  startX (moves es st) = startX st.
Proof.
  unfold moves. induction es as [|e es IH] using rev_ind; [done|].
  rewrite foldl_snoc. destruct IH as [Hdrag Hstart].
  unfold handleMouseMove.
  destruct (isDragging (foldl _ st es)) eqn:Hd; simpl; by rewrite <- ?Hdrag.
Qed.

(** X7. The column that a release reports depends on where the card was
    pressed and where it is released, not on the way of the pointer
    between the two: the moves of a drag change neither the grip
    [startX] nor what a release reports. And the position that a move
    stores in [currentX] is the one from which a release at the same
    pointer coordinates takes the column. *)
Theorem drag_follows_pointer props es e st :
  (handleMouseUp props e (moves es st)).2 = (handleMouseUp props e st).2 ∧
  (isDragging st = true →
   currentX (handleMouseMove e st) = fl (clientX e - startX st) ∧
   ∀ call, call ∈ (handleMouseUp props e st).2 →
     call_newColumn call = columnUnder (currentX (handleMouseMove e st))).
Proof.
  split.
  - destruct (moves_keeps es st) as [Hdrag Hstart].
    unfold handleMouseUp. rewrite Hdrag, Hstart.
    by destruct (isDragging st).
  - intros Hdrag.
    assert (currentX (handleMouseMove e st) = fl (clientX e - startX st))
      as Hx by (unfold handleMouseMove; by rewrite Hdrag).
    split; [done|].
    intros call (_ & -> & _)%handleMouseUp_calls. by rewrite Hx.
Qed.

End WithDouble.

(** A machine without rounding error. *)
Definition fl_exact (x : Q) : Q := x.

Lemma fl_exact_near x :
  (Qabs x <= fl_range)%Q → (Qabs (fl_exact x - x) <= fl_tolerance)%Q.
Proof.
  intros _. unfold fl_exact, fl_tolerance. apply Qabs_Qle_condition. split; lra.
Qed.

(** A card rendered in column 0 at left edge 210, grabbed 10 pixels
    inside and released 460 pixels to the right: it lands on column 2. *)
Definition sample_props : Props :=
  {| event_id := "ev1"; position := 300; column := 0;
     isDraggingEnabled := true |}.

Definition sample_rect : DOMRect := {| rect_left := 210; rect_top := 280 |}.
Definition sample_down : MouseEvent := {| clientX := 220; clientY := 300 |}.
Definition sample_near : MouseEvent := {| clientX := 320; clientY := 310 |}.
Definition sample_up : MouseEvent := {| clientX := 680; clientY := 300 |}.

Definition sample_grabbed : State :=
  handleMouseDown fl_exact sample_props (Some sample_rect) sample_down
    initialState.

Definition sample_store : gmap string StoredEvent :=
  <["ev1" := {| title := "First game"; date := "2013-05-01";
                category := "updates"; stored_column := 0 |}]>
  {["ev2" := {| title := "Record"; date := "2016-02-11";
                category := "records"; stored_column := 3 |}]}.

Definition sample_locked : Props :=
  {| event_id := "ev1"; position := 300; column := 0;
     isDraggingEnabled := false |}.

Lemma handleMouseUp_column_bounded_witness :
  (handleMouseUp fl_exact sample_props sample_up sample_grabbed).2
  = [ {| call_eventId := "ev1"; call_newColumn := 2; call_position := 300 |} ] ∧
  (0 ≤ 2 ≤ 19)%Z.
Proof.
  assert ((handleMouseUp fl_exact sample_props sample_up sample_grabbed).2
          = [ {| call_eventId := "ev1"; call_newColumn := 2;
                 call_position := 300 |} ]) as Hcalls by reflexivity.
  split; [exact Hcalls|].
  refine (proj2 (proj2 (handleMouseUp_column_bounded fl_exact sample_props
    sample_up sample_grabbed
    {| call_eventId := "ev1"; call_newColumn := 2; call_position := 300 |} _))).
  rewrite Hcalls. apply list_elem_of_singleton. reflexivity.
Defined.

(** The card of event ev1 is rendered in column 2 while the store holds
    column 5 for it, and it is released where it is drawn: nothing is
    written, and a load gives 5, not the column it was released over. *)
Definition sample_rendered : Props :=
  {| event_id := "ev1"; position := 300; column := 2;
     isDraggingEnabled := true |}.

Definition sample_stale : gmap string StoredEvent :=
  {["ev1" := {| title := "First game"; date := "2013-05-01";
                category := "updates"; stored_column := 5 |}]}.

Definition sample_held : State :=
  handleMouseDown fl_exact sample_rendered
    (Some {| rect_left := 650; rect_top := 280 |})
    {| clientX := 660; clientY := 300 |} initialState.

Lemma release_same_column_counterexample :
  ¬ (∀ props e st store,
       isDragging st = true →
       is_Some (store !! event_id props) →
       loadColumn (event_id props) (release fl_exact props e st store).2
       = Some (columnUnder fl_exact (fl_exact (clientX e - startX st)))).
Proof.
  intros Hclaim.
  specialize (Hclaim sample_rendered {| clientX := 660; clientY := 300 |}
                sample_held sample_stale eq_refl).
  assert (is_Some (sample_stale !! event_id sample_rendered)) as Hsome
    by (eexists; reflexivity).
  specialize (Hclaim Hsome). vm_compute in Hclaim. discriminate.
Qed.

Lemma release_commits_own_column_witness :
  loadColumn "ev1"
    (release fl_exact sample_props sample_up sample_grabbed sample_store).2
  = Some 2%Z ∧
  (release fl_exact sample_props sample_up sample_grabbed sample_store).2 !! "ev2"
  = sample_store !! "ev2".
Proof.
  destruct (release_commits_own_column fl_exact sample_props sample_up
              sample_grabbed sample_store eq_refl)
    as (_ & Hload & _ & Hother).
  split; [|apply Hother; discriminate].
  etransitivity; [apply Hload; vm_compute; discriminate | reflexivity].
Defined.

Lemma drag_moves_whole_columns_witness :
  (handleMouseUp fl_exact sample_props sample_up
     (handleMouseDown fl_exact sample_props (Some sample_rect) sample_down
        initialState)).2
  = [ {| call_eventId := "ev1"; call_newColumn := 2; call_position := 300 |} ].
Proof.
  rewrite (drag_moves_whole_columns fl_exact fl_exact_near sample_props sample_rect
             sample_down sample_up initialState 2);
    first [ reflexivity | vm_compute; discriminate ].
Defined.

Lemma short_drag_keeps_column_witness :
  (handleMouseUp fl_exact sample_props sample_near
     (handleMouseDown fl_exact sample_props (Some sample_rect) sample_down
        initialState)).2
  = [].
Proof.
  apply (short_drag_keeps_column fl_exact fl_exact_near sample_props sample_rect
           sample_down sample_near initialState);
    first [ reflexivity | vm_compute; discriminate
          | vm_compute; split; discriminate ].
Defined.

Lemma no_drag_when_disabled_witness :
  gesture fl_exact sample_locked
    [mousedown (Some sample_rect) sample_down; mousemove sample_near;
     mouseup sample_up] initialState
  = (initialState, []).
Proof.
  apply (no_drag_when_disabled fl_exact sample_locked); reflexivity.
Defined.

Lemma drag_follows_pointer_witness :
  currentX (handleMouseMove fl_exact sample_up sample_grabbed)
  = fl_exact (680 - fl_exact (220 - 210))%Q.
Proof.
  destruct (drag_follows_pointer fl_exact sample_props [sample_near] sample_up
              sample_grabbed) as [_ Hdrag].
  destruct (Hdrag eq_refl) as [Hx _]. exact Hx.
Defined.

End EventBox.

(* --------------------------------------------------------------------- *)
(* config/timelineControls: the zoom controls                            *)
(* --------------------------------------------------------------------- *)
Module TimelineControls.
Section Zoom.

(** The step factor and the bounds of [yearSpacing]. *)
Variables ZOOM_STEP MIN_YEAR_SPACING MAX_YEAR_SPACING : Q.

(** The rounding of a floating-point operation: [fl x] is the number the
    machine stores for the exact result [x], off by at most the relative
    error [eps]. Exact arithmetic is [fl x = x] with [eps = 0]. *)
Variable fl : Q → Q.
Variable eps : Q.

(** Modelled from the spec: the clamping of [yearSpacing] to
    [min, max] of section 4.1; config/timelineControls is not among the
    sources. *)
Definition clamp (x : Q) : Q :=
  Qmax MIN_YEAR_SPACING (Qmin MAX_YEAR_SPACING x).

(** Modelled from the spec: [zoomIn] is imported from
    config/timelineControls, which is not among the sources; section 4.1
    has it multiply [yearSpacing] by a fixed step factor, clamped to
    [min, max]. *)
Definition zoomIn (current : Q) : Q := clamp (fl (current * ZOOM_STEP)).

(** Modelled from the spec: [zoomOut] is imported from
    config/timelineControls, which is not among the sources; section 4.1
    has it divide [yearSpacing] by the same step factor, clamped to
    [min, max]. *)
Definition zoomOut (current : Q) : Q := clamp (fl (current / ZOOM_STEP)).

(** [handleZoomIn] and [handleZoomOut] of the page hand these updaters to
    [setYearSpacing]. *)
Definition handleZoomIn (yearSpacing : Q) : Q := zoomIn yearSpacing.
Definition handleZoomOut (yearSpacing : Q) : Q := zoomOut yearSpacing.

Hypothesis eps_nonneg : (0 <= eps)%Q.
Hypothesis fl_error : ∀ x, (Qabs (fl x - x) <= eps * Qabs x)%Q.
Hypothesis step_pos : (0 < ZOOM_STEP)%Q.
Hypothesis step_dominates : (1 <= ZOOM_STEP * (1 - eps))%Q.
Hypothesis range : (0 < MIN_YEAR_SPACING <= MAX_YEAR_SPACING)%Q.

Lemma clamp_cases x :
  (x <= MIN_YEAR_SPACING ∧ clamp x == MIN_YEAR_SPACING)%Q ∨
  (MIN_YEAR_SPACING <= x <= MAX_YEAR_SPACING ∧ clamp x == x)%Q ∨
  (MAX_YEAR_SPACING <= x ∧ clamp x == MAX_YEAR_SPACING)%Q.
Proof.
  unfold clamp. destruct range as [Hmin Hle].
  destruct (Qlt_le_dec x MIN_YEAR_SPACING) as [Hlo|Hlo].
  - left. split; [lra|].
    rewrite (Q.min_r MAX_YEAR_SPACING x) by lra. apply Q.max_l. lra.
  - destruct (Qlt_le_dec MAX_YEAR_SPACING x) as [Hhi|Hhi].
    + right; right. split; [lra|].
      rewrite (Q.min_l MAX_YEAR_SPACING x) by lra. apply Q.max_r. lra.
    + right; left. split; [lra|].
      rewrite (Q.min_r MAX_YEAR_SPACING x) by lra. apply Q.max_r. lra.
Qed.

Lemma fl_bounds x : (0 <= x → x * (1 - eps) <= fl x <= x * (1 + eps))%Q.
Proof.
  intros Hx. pose proof (fl_error x) as H.
  rewrite (Qabs_pos x) in H by done.
  apply Qabs_Qle_condition in H as [Hlo Hhi]. split; lra.
Qed.

Lemma eps_lt_1 : (eps < 1)%Q.
Proof. nra. Qed.

Lemma zoomIn_at_max y :
  (y == MAX_YEAR_SPACING → zoomIn y == MAX_YEAR_SPACING)%Q.
Proof.
  intros Hy. unfold zoomIn. destruct range as [Hmin Hle].
  assert (0 <= y * ZOOM_STEP)%Q as Hpos by nra.
  pose proof (fl_bounds _ Hpos) as [Hlo _].
  destruct (clamp_cases (fl (y * ZOOM_STEP))) as [[H1 H2]|[[H1 H2]|[H1 H2]]].
  - nra.
  - rewrite H2. nra.
  - done.
Qed.

Lemma zoomOut_at_min y :
  (y == MIN_YEAR_SPACING → zoomOut y == MIN_YEAR_SPACING)%Q.
Proof.
  intros Hy. unfold zoomOut. destruct range as [Hmin Hle].
  pose proof eps_lt_1 as He.
  assert (y / ZOOM_STEP * ZOOM_STEP == y)%Q as Hq by (field; lra).
  set (t := (y / ZOOM_STEP)%Q) in *. clearbody t.
  assert (0 <= t)%Q as Hpos by nra.
  pose proof (fl_bounds _ Hpos) as [_ Hhi].
  destruct (clamp_cases (fl t)) as [[H1 H2]|[[H1 H2]|[H1 H2]]].
  - done.
  - rewrite H2. nra.
  - nra.
Qed.

Lemma zoomIn_repeated n :
  (Nat.iter n handleZoomIn MAX_YEAR_SPACING == MAX_YEAR_SPACING)%Q.
Proof.
  induction n as [|n IH]; simpl; [reflexivity|]. by apply zoomIn_at_max.
Qed.

Lemma zoomOut_repeated n :
  (Nat.iter n handleZoomOut MIN_YEAR_SPACING == MIN_YEAR_SPACING)%Q.
Proof.
  induction n as [|n IH]; simpl; [reflexivity|]. by apply zoomOut_at_min.
Qed.

(** Zooming in without hitting the upper bound and then out again gives
    the spacing back up to the rounding of the two operations. *)
Lemma zoom_roundtrip_error y :
  (MIN_YEAR_SPACING <= y)%Q →
  (fl (y * ZOOM_STEP) <= MAX_YEAR_SPACING)%Q →
  (Qabs (handleZoomOut (handleZoomIn y) - y) <= (2 * eps + eps * eps) * y)%Q.
Proof.
  intros Hy Hin. destruct range as [Hmin Hle]. pose proof eps_lt_1 as He.
  unfold handleZoomOut, handleZoomIn.
  assert (0 <= y * ZOOM_STEP)%Q as Hpos by nra.
  pose proof (fl_bounds _ Hpos) as [Halo Hahi].
  assert (zoomIn y == fl (y * ZOOM_STEP))%Q as Hz.
  { unfold zoomIn.
    destruct (clamp_cases (fl (y * ZOOM_STEP))) as [[H1 H2]|[[H1 H2]|[H1 H2]]].
    - rewrite H2. nra.
    - done.
    - rewrite H2. lra. }
  set (a := fl (y * ZOOM_STEP)) in *. clearbody a.
  set (z := zoomIn y) in *. clearbody z.
  unfold zoomOut.
  assert (z / ZOOM_STEP * ZOOM_STEP == z)%Q as Hq by (field; lra).
  set (t := (z / ZOOM_STEP)%Q) in *. clearbody t.
  assert (y * (1 - eps) <= t <= y * (1 + eps))%Q as [Htlo Hthi] by (split; nra).
  assert (0 <= t)%Q as Htpos by nra.
  pose proof (fl_bounds _ Htpos) as [Hblo Hbhi].
  set (b := fl t) in *. clearbody b.
  assert (y <= MAX_YEAR_SPACING)%Q as Hymax by nra.
  apply Qabs_Qle_condition.
  destruct (clamp_cases b) as [[H1 H2]|[[H1 H2]|[H1 H2]]];
    rewrite H2; split; nra.
Qed.

(** C9 (amended). With a step factor that outweighs the rounding error
    and bounds 0 < min <= max: for a spacing within the bounds whose
    zoom-in is not cut off at max, zoom-in followed by zoom-out gives the
    spacing back within the rounding tolerance (2 eps + eps^2) of its
    value, exactly so in exact arithmetic; at max any number of zoom-ins
    leaves max, and at min any number of zoom-outs leaves min. *)
Theorem zoom_reversible_and_stable_at_bounds :
  (∀ y, (MIN_YEAR_SPACING <= y)%Q →
        (fl (y * ZOOM_STEP) <= MAX_YEAR_SPACING)%Q →
        (Qabs (handleZoomOut (handleZoomIn y) - y)
         <= (2 * eps + eps * eps) * y)%Q) ∧
  (∀ n, (Nat.iter n handleZoomIn MAX_YEAR_SPACING == MAX_YEAR_SPACING)%Q) ∧
  (∀ n, (Nat.iter n handleZoomOut MIN_YEAR_SPACING == MIN_YEAR_SPACING)%Q).
Proof.
  split; [|split].
  - apply zoom_roundtrip_error.
  - apply zoomIn_repeated.
  - apply zoomOut_repeated.
Qed.

End Zoom.

(** In exact arithmetic the round trip is exact. *)
Lemma zoom_roundtrip_exact step lo hi y :
  (1 <= step)%Q → (0 < lo <= hi)%Q → (lo <= y)%Q → (y * step <= hi)%Q →
  (handleZoomOut step lo hi (λ x, x) (handleZoomIn step lo hi (λ x, x) y)
   == y)%Q.
Proof.
  intros Hstep Hrange Hlo Hhi.
  assert (Qabs (handleZoomOut step lo hi (λ x, x)
                  (handleZoomIn step lo hi (λ x, x) y) - y)
          <= (2 * 0 + 0 * 0) * y)%Q as H.
  { apply zoom_roundtrip_error; try done; try lra.
    intros x. apply Qabs_Qle_condition. split; lra. }
  apply Qabs_Qle_condition in H as [H1 H2]. lra.
Qed.

(** A spacing strictly between the bounds whose zoom-in is cut off: with
    step 6/5 and the bounds 10 and 200, in exact arithmetic, 190 goes up
    to 200 and comes back as 166 2/3, not within a hundredth of 190. *)
Lemma zoom_clamped_counterexample :
  ¬ (∀ y, (10 < y)%Q → (y < 200)%Q →
       (Qabs (handleZoomOut (6 # 5) 10 200 (λ x, x)
                (handleZoomIn (6 # 5) 10 200 (λ x, x) y) - y)
        <= (1 # 100) * y)%Q).
Proof.
  intros Hclaim.
  assert (10 < 190)%Q as Hlo by reflexivity.
  assert (190 < 200)%Q as Hhi by reflexivity.
  specialize (Hclaim 190%Q Hlo Hhi). vm_compute in Hclaim.
  by apply Hclaim.
Qed.

(** A machine that overshoots every result by one part in a thousand. *)
Definition fl_milli (x : Q) : Q := x * (1001 # 1000).

Lemma fl_milli_error x : (Qabs (fl_milli x - x) <= (1 # 1000) * Qabs x)%Q.
Proof.
  unfold fl_milli. apply Qabs_Qle_condition.
  apply (Qabs_case x); intros; split; lra.
Qed.

Lemma zoom_reversible_and_stable_at_bounds_witness :
  (Qabs (handleZoomOut (6 # 5) 10 200 fl_milli
           (handleZoomIn (6 # 5) 10 200 fl_milli 50) - 50)
   <= (2 * (1 # 1000) + (1 # 1000) * (1 # 1000)) * 50)%Q ∧
  (Nat.iter 3 (handleZoomIn (6 # 5) 10 200 fl_milli) 200 == 200)%Q ∧
  (Nat.iter 3 (handleZoomOut (6 # 5) 10 200 fl_milli) 10 == 10)%Q.
Proof.
  destruct (zoom_reversible_and_stable_at_bounds
              (6 # 5) 10 200 fl_milli (1 # 1000)) as (Hrt & Hmax & Hmin).
  - vm_compute. discriminate.
  - apply fl_milli_error.
  - reflexivity.
  - vm_compute. discriminate.
  - split; [reflexivity | vm_compute; discriminate].
  - split; [|split].
    + apply Hrt; vm_compute; discriminate.
    + apply Hmax.
    + apply Hmin.
Defined.

End TimelineControls.

(* --------------------------------------------------------------------- *)
(* TimelinePage: the live subscription to the events collection          *)
(* --------------------------------------------------------------------- *)
Module TimelinePage.

(** A document of a query snapshot: [doc.id] and the fields of
    [doc.data()]. *)
Record QueryDocumentSnapshot := {
  doc_id : string;
  doc_data : gmap string string
}.

(** The page state that the subscription and the controls share. A
    [TimelineEvent] is the object built from a document: a finite map
    from field names to values. *)
Record State := {
  events : list (gmap string string);
  selectedCategories : list string;
  yearSpacing : Q;
  isDraggingEnabled : bool;
  showEventDates : bool;
  isLoading : bool;
  error : option string
}.

(** What a subscription callback does, in order. *)
Inductive Effect :=
  | setEvents (evs : list (gmap string string))
  | setIsLoading (b : bool)
  | setError (msg : option string)
  | console_error (msg : string).

Definition isSetEvents (eff : Effect) : Prop :=
  match eff with setEvents _ => True | _ => False end.

#[local] Instance isSetEvents_dec eff : Decision (isSetEvents eff).
Proof. destruct eff; simpl; apply _. Defined.

Definition perform (st : State) (eff : Effect) : State :=
  match eff with
  | setEvents evs =>
      {| events := evs;
         selectedCategories := selectedCategories st;
         yearSpacing := yearSpacing st;
         isDraggingEnabled := isDraggingEnabled st;
         showEventDates := showEventDates st;
         isLoading := isLoading st;
         error := error st |}
  | setIsLoading b =>
      {| events := events st;
         selectedCategories := selectedCategories st;
         yearSpacing := yearSpacing st;
         isDraggingEnabled := isDraggingEnabled st;
         showEventDates := showEventDates st;
         isLoading := b;
         error := error st |}
  | setError msg =>
      {| events := events st;
         selectedCategories := selectedCategories st;
         yearSpacing := yearSpacing st;
         isDraggingEnabled := isDraggingEnabled st;
         showEventDates := showEventDates st;
         isLoading := isLoading st;
         error := msg |}
  | console_error _ => st
  end.

Definition run (effs : list Effect) (st : State) : State :=
  foldl perform st effs.

(** [{ id: doc.id, ...doc.data() }]: the fields of the document, and
    [id] unless the document has a field of that name. *)
Definition toEvent (doc : QueryDocumentSnapshot) : gmap string string :=
  doc_data doc ∪ {["id" := doc_id doc]}.

Section WithDate.

(** [new Date(v).getTime()] for the value [v] of a [date] field, absent
    or a string: the time value in milliseconds, or [None] for the NaN
    of an invalid date. *)
Variable Date_getTime : option string → option Z.

Definition getTime (ev : gmap string string) : option Z :=
  Date_getTime (ev !! "date").

(** [(a, b) => new Date(a.date).getTime() - new Date(b.date).getTime()] *)
Definition byDate (a b : gmap string string) : option Z :=
  ta ← getTime a; tb ← getTime b; Some (ta - tb)%Z.

(** The success callback of [onSnapshot(collection(db, "events"), ...)]. *)
Definition onSnapshotNext (snapshot : list QueryDocumentSnapshot)
  : list Effect :=
  let updatedEvents := toEvent <$> snapshot in
  [ setEvents (JS.Array_sort byDate updatedEvents);
    setIsLoading false ].

(** The error callback of the same subscription. *)
Definition onSnapshotError : list Effect :=
  [ console_error "Error listening to events:";
    setError (Some "Failed to load updates. Please refresh the page.");
    setIsLoading false ].

(** What the cast [as TimelineEvent[]] takes every mapped document for:
    an event whose [date] is a calendar date. *)
Definition isTimelineEvent (ev : gmap string string) : Prop :=
  is_Some (getTime ev).

(** [a] is dated no later than [b]; both carry a valid date. *)
Definition dateLe (a b : gmap string string) : Prop :=
  ∃ ta tb, getTime a = Some ta ∧ getTime b = Some tb ∧ (ta ≤ tb)%Z.

Lemma run_app effs1 effs2 st : run (effs1 ++ effs2) st = run effs2 (run effs1 st).
Proof. unfold run. apply foldl_app. Qed.

Lemma toEvent_date doc : toEvent doc !! "date" = doc_data doc !! "date".
Proof.
  unfold toEvent. destruct (doc_data doc !! "date") as [d|] eqn:Hd.
  - by apply lookup_union_Some_l.
  - apply lookup_union_None. split; [done|]. by apply lookup_singleton_ne.
Qed.

Lemma Array_sort_byDate evs :
  Forall isTimelineEvent evs →
  StronglySorted dateLe (JS.Array_sort byDate evs).
Proof.
  intros Hvalid.
  assert (∀ ev, ev ∈ evs → getTime ev = Some (default 0%Z (getTime ev)))
    as Hkey.
  { intros ev Hev. rewrite Forall_forall in Hvalid.
    destruct (Hvalid ev Hev) as [t Ht]. by rewrite Ht. }
  pose proof (JS.Array_sort_sorted byDate (λ ev, default 0%Z (getTime ev)) evs)
    as Hsorted.
  eapply JS.StronglySorted_elem_impl; [|apply Hsorted].
  - intros a b Ha Hb Hle.
    rewrite JS.Array_sort_Permutation in Ha, Hb.
    exists (default 0%Z (getTime a)), (default 0%Z (getTime b)). auto.
  - intros a b Ha Hb. unfold byDate.
    rewrite (Hkey a Ha), (Hkey b Hb). done.
Qed.


Lemma onSnapshotError_events st : events (run onSnapshotError st) = events st.
Proof. reflexivity. Qed.


(** C8. The error callback shows a message and lets the page render,
    makes no [setEvents] call and leaves the event list and the controls
    as they were; after a snapshot and any number of failures the page
    still holds the events of that snapshot. *)
Theorem onSnapshotError_keeps_events st :
  filter isSetEvents onSnapshotError = [] ∧
  error (run onSnapshotError st)
  = Some "Failed to load updates. Please refresh the page." ∧
  isLoading (run onSnapshotError st) = false ∧
  events (run onSnapshotError st) = events st ∧
  selectedCategories (run onSnapshotError st) = selectedCategories st ∧
  yearSpacing (run onSnapshotError st) = yearSpacing st ∧
  isDraggingEnabled (run onSnapshotError st) = isDraggingEnabled st ∧
  showEventDates (run onSnapshotError st) = showEventDates st ∧
  ∀ snapshot n,
    events (Nat.iter n (run onSnapshotError)
              (run (onSnapshotNext snapshot) st))
    = events (run (onSnapshotNext snapshot) st).
Proof.
  repeat (split; [reflexivity|]).
  intros snapshot n. induction n as [|n IH]; [reflexivity|].
  rewrite Nat.iter_succ, onSnapshotError_events. exact IH.
Qed.

(* ---- the subscription over time -------------------------------------- *)

(** What the subscription delivers: a snapshot, or a failure. *)
Inductive Callback :=
  | next (snapshot : list QueryDocumentSnapshot)
  | failed.

Definition callback (st : State) (cb : Callback) : State :=
  match cb with
  | next snapshot => run (onSnapshotNext snapshot) st
  | failed => run onSnapshotError st
  end.

Definition subscription (cbs : list Callback) (st : State) : State :=
  foldl callback st cbs.

(** The last snapshot among the callbacks, and whether one of them was a
    failure. *)
Definition lastSnapshot (cbs : list Callback)
  : option (list QueryDocumentSnapshot) :=
  foldl (λ acc cb, match cb with next snapshot => Some snapshot | failed => acc end)
        None cbs.

Definition anyFailed (cbs : list Callback) : bool :=
  existsb (λ cb, match cb with failed => true | next _ => false end) cbs.

Lemma filter_ext_elem {B} (P Q : B → Prop)
    `{∀ x, Decision (P x)} `{∀ x, Decision (Q x)} (l : list B) :
  (∀ x, x ∈ l → P x ↔ Q x) → filter P l = filter Q l.
Proof.
  induction l as [|x l IH]; intros Hpq; [done|].
  rewrite !filter_cons, IH
    by (intros y Hy; apply Hpq; apply elem_of_cons; auto).
  assert (P x ↔ Q x) as Hx by (apply Hpq; apply elem_of_cons; auto).
  destruct (decide (P x)), (decide (Q x)); tauto || done.
Qed.

Lemma byDate_key evs :
  Forall isTimelineEvent evs →
  ∀ a b, a ∈ evs → b ∈ evs →
    byDate a b = Some (default 0%Z (getTime a) - default 0%Z (getTime b))%Z.
Proof.
  intros Hvalid a b Ha Hb. rewrite Forall_forall in Hvalid.
  destruct (Hvalid a Ha) as [ta Hta], (Hvalid b Hb) as [tb Htb].
  unfold byDate. by rewrite Hta, Htb.
Qed.

(** X8. Every field of [doc.data()] goes into the event as it is, a
    field named [id] included; [doc.id] becomes the [id] of the event only
    when the data has no such field. *)
Theorem toEvent_fields doc k :
  toEvent doc !! k
  = match doc_data doc !! k with
    | Some v => Some v
    | None => if decide (k = "id") then Some (doc_id doc) else None
    end.
Proof.
  unfold toEvent. destruct (doc_data doc !! k) as [v|] eqn:Hk.
  - by apply lookup_union_Some_l.
  - rewrite lookup_union_r by done. destruct (decide (k = "id")) as [->|Hne].
    + apply lookup_singleton_eq.
    + by apply lookup_singleton_ne.
Qed.

(** X9. Events of the same date stay in the order of their documents in
    the snapshot, and a snapshot whose documents come in date order is
    stored in that very order. *)
Theorem onSnapshotNext_stable snapshot st :
  Forall isTimelineEvent (toEvent <$> snapshot) →
  (∀ t, filter (λ ev, getTime ev = Some t)
          (events (run (onSnapshotNext snapshot) st))
        = filter (λ ev, getTime ev = Some t) (toEvent <$> snapshot)) ∧
  (StronglySorted dateLe (toEvent <$> snapshot) →
   events (run (onSnapshotNext snapshot) st) = toEvent <$> snapshot).
Proof.
  intros Hvalid. cbn [onSnapshotNext run foldl perform events].
  set (evs := toEvent <$> snapshot) in *. clearbody evs.
  pose proof (byDate_key evs Hvalid) as Hkey. split.
  - intros t.
    assert (∀ l, l ≡ₚ evs →
              filter (λ ev, getTime ev = Some t) l
              = filter (λ ev, default 0%Z (getTime ev) = t) l) as Hsame.
    { intros l Hl. apply filter_ext_elem. intros ev Hev. rewrite Hl in Hev.
      rewrite Forall_forall in Hvalid. destruct (Hvalid ev Hev) as [t' ->].
      simpl. split; [by intros [= ->] | by intros ->]. }
    rewrite (Hsame evs) by done.
    rewrite (Hsame _ (JS.Array_sort_Permutation byDate evs)).
    by apply JS.Array_sort_stable.
  - intros Hs. apply (JS.Array_sort_sorted_id byDate _ evs Hkey).
    eapply JS.StronglySorted_elem_impl; [|exact Hs].
    intros a b _ _ (ta & tb & -> & -> & Hle). done.
Qed.

(** X10. After any sequence of snapshots and failures the page shows
    the events of the last snapshot, in date order when they all carry a
    date that parses, or the events it had when there was no snapshot;
    the error of a failure stays once there has been one; the page has
    stopped loading after the first callback; and the filter and the
    zoom are as the user left them. *)
Theorem subscription_state cbs st :
  match lastSnapshot cbs with
  | Some snapshot =>
      events (subscription cbs st) ≡ₚ toEvent <$> snapshot ∧
      (Forall isTimelineEvent (toEvent <$> snapshot) →
       StronglySorted dateLe (events (subscription cbs st)))
  | None => events (subscription cbs st) = events st
  end ∧
  error (subscription cbs st)
  = (if anyFailed cbs
     then Some "Failed to load updates. Please refresh the page."
     else error st) ∧
  isLoading (subscription cbs st)
  = match cbs with [] => isLoading st | _ => false end ∧
  selectedCategories (subscription cbs st) = selectedCategories st ∧
  yearSpacing (subscription cbs st) = yearSpacing st.
Proof.
  assert (events (subscription cbs st)
          = match lastSnapshot cbs with
            | Some snapshot => JS.Array_sort byDate (toEvent <$> snapshot)
            | None => events st
            end ∧
          error (subscription cbs st)
          = (if anyFailed cbs
             then Some "Failed to load updates. Please refresh the page."
             else error st) ∧
          isLoading (subscription cbs st)
          = match cbs with [] => isLoading st | _ => false end ∧
          selectedCategories (subscription cbs st) = selectedCategories st ∧
          yearSpacing (subscription cbs st) = yearSpacing st)
    as (Hev & Hrest).
  { induction cbs as [|cb cbs IH] using rev_ind; [done|].
    destruct IH as (Hev & Herr & Hload & Hsel & Hzoom).
    unfold subscription, lastSnapshot, anyFailed in *.
    rewrite !foldl_snoc, existsb_app.
    destruct cb as [snapshot|]; cbn -[JS.Array_sort].
    - rewrite orb_false_r. repeat split; try done; by destruct cbs.
    - rewrite orb_true_r. repeat split; try done; by destruct cbs. }
  split; [|exact Hrest]. rewrite Hev.
  destruct (lastSnapshot cbs) as [snapshot|]; [|done].
  split; [apply JS.Array_sort_Permutation | apply Array_sort_byDate].
Qed.

End WithDate.

(** Three documents with dates the sample clock knows. *)
Definition sample_getTime (v : option string) : option Z :=
  if decide (v = Some "2011-06-18") then Some 1308355200000%Z
  else if decide (v = Some "2013-05-01") then Some 1367366400000%Z
  else if decide (v = Some "2016-02-11") then Some 1455148800000%Z
  else None.

Definition sample_snapshot : list QueryDocumentSnapshot :=
  [ {| doc_id := "c"; doc_data := {["date" := "2016-02-11"]} |};
    {| doc_id := "a"; doc_data := {["date" := "2011-06-18"]} |};
    {| doc_id := "b"; doc_data := {["date" := "2013-05-01"]} |} ].

(** The page before the first snapshot, showing one stale event. *)
Definition sample_state : State :=
  {| events := [ {["id" := "old"]} ];
     selectedCategories := ["all"];
     yearSpacing := 100;
     isDraggingEnabled := false;
     showEventDates := true;
     isLoading := true;
     error := None |}.


(** A document whose date does not parse, between two dated ones. *)
Definition sample_undated : list QueryDocumentSnapshot :=
  [ {| doc_id := "b"; doc_data := {["date" := "2013-05-01"]} |};
    {| doc_id := "x"; doc_data := {["date" := "soon"]} |};
    {| doc_id := "a"; doc_data := {["date" := "2011-06-18"]} |} ].


Lemma subscription_state_witness :
  StronglySorted (dateLe sample_getTime)
    (events (subscription sample_getTime
               [failed; next sample_undated; next sample_snapshot; failed]
               sample_state)).
Proof.
  destruct (subscription_state sample_getTime
              [failed; next sample_undated; next sample_snapshot; failed]
              sample_state) as [[_ Hsorted] _].
  apply Hsorted. repeat constructor; vm_compute; eexists; reflexivity.
Defined.

(** Two documents of the same date around an earlier one. *)
Definition sample_same_day : list QueryDocumentSnapshot :=
  [ {| doc_id := "b1"; doc_data := {["date" := "2013-05-01"]} |};
    {| doc_id := "a"; doc_data := {["date" := "2011-06-18"]} |};
    {| doc_id := "b2"; doc_data := {["date" := "2013-05-01"]} |} ].

Lemma onSnapshotNext_stable_witness :
  (λ ev, ev !! "id") <$>
    filter (λ ev, getTime sample_getTime ev = Some 1367366400000%Z)
      (events (run (onSnapshotNext sample_getTime sample_same_day) sample_state))
  = [Some "b1"; Some "b2"].
Proof.
  destruct (onSnapshotNext_stable sample_getTime sample_same_day sample_state)
    as [Hsame _].
  - repeat constructor; vm_compute; eexists; reflexivity.
  - rewrite Hsame. vm_compute. reflexivity.
Defined.

End TimelinePage.

(* --------------------------------------------------------------------- *)
(* PlayerManagement: the admin form for players and their alt accounts   *)
(* --------------------------------------------------------------------- *)
Module PlayerManagement.

Record Player := {
  id : string;
  currentIgn : string;
  uuid : string;
  pastIgns : option (list string);
  events : list string;
  role : option string;
  mainAccount : option string;
  altAccounts : option (list string)
}.

(** [Partial<Player>]: every field may be missing. *)
Record PlayerForm := {
  form_id : option string;
  form_currentIgn : option string;
  form_uuid : option string;
  form_pastIgns : option (list string);
  form_events : option (list string);
  form_role : option string;
  form_mainAccount : option string;
  form_altAccounts : option (list string)
}.

Definition initialPlayerForm : PlayerForm :=
  {| form_id := None;
     form_currentIgn := Some "";
     form_uuid := None;
     form_pastIgns := Some [];
     form_events := Some [];
     form_role := None;
     form_mainAccount := None;
     form_altAccounts := Some [] |}.

Definition formOf (player : Player) : PlayerForm :=
  {| form_id := Some (id player);
     form_currentIgn := Some (currentIgn player);
     form_uuid := Some (uuid player);
     form_pastIgns := pastIgns player;
     form_events := Some (events player);
     form_role := role player;
     form_mainAccount := mainAccount player;
     form_altAccounts := altAccounts player |}.

Definition with_currentIgn (v : option string) (f : PlayerForm) : PlayerForm :=
  {| form_id := form_id f;
     form_currentIgn := v;
     form_uuid := form_uuid f;
     form_pastIgns := form_pastIgns f;
     form_events := form_events f;
     form_role := form_role f;
     form_mainAccount := form_mainAccount f;
     form_altAccounts := form_altAccounts f |}.

Definition with_uuid (v : option string) (f : PlayerForm) : PlayerForm :=
  {| form_id := form_id f;
     form_currentIgn := form_currentIgn f;
     form_uuid := v;
     form_pastIgns := form_pastIgns f;
     form_events := form_events f;
     form_role := form_role f;
     form_mainAccount := form_mainAccount f;
     form_altAccounts := form_altAccounts f |}.

Definition with_altAccounts (v : list string) (f : PlayerForm) : PlayerForm :=
  {| form_id := form_id f;
     form_currentIgn := form_currentIgn f;
     form_uuid := form_uuid f;
     form_pastIgns := form_pastIgns f;
     form_events := form_events f;
     form_role := form_role f;
     form_mainAccount := form_mainAccount f;
     form_altAccounts := Some v |}.

(* ---- the alt-account inputs ---------------------------------------- *)

Definition isHexDigit (c : ascii) : bool :=
  let n := nat_of_ascii c in
  bool_decide (48 ≤ n ≤ 57 ∨ 97 ≤ n ≤ 102 ∨ 65 ≤ n ≤ 70)%nat.

(** [n] hexadecimal digits at the head of [s]; what follows them. *)
Fixpoint hexDigits (n : nat) (s : string) : option string :=
  match n with
  | O => Some s
  | S n' =>
      match s with
      | String c s' => if isHexDigit c then hexDigits n' s' else None
      | EmptyString => None
      end
  end.

Definition hyphen (s : string) : option string :=
  match s with
  | String c s' => if bool_decide (c = "-"%char) then Some s' else None
  | EmptyString => None
  end.

(** Groups of hexadecimal digits of the given sizes, a hyphen between
    one group and the next, at the head of [s]; what follows them. *)
Fixpoint hexGroups (sizes : list nat) (s : string) : option string :=
  match sizes with
  | [] => Some s
  | [n] => hexDigits n s
  | n :: sizes' =>
      match hexDigits n s with
      | Some s' =>
          match hyphen s' with
          | Some s'' => hexGroups sizes' s''
          | None => None
          end
      | None => None
      end
  end.

(** [/^[0-9a-f]{8}-[0-9a-f]{4}-[0-9a-f]{4}-[0-9a-f]{4}-[0-9a-f]{12}$/i.test(s)] *)
Definition uuidRegex_test (s : string) : bool :=
  bool_decide (hexGroups [8; 4; 4; 4; 12]%nat s = Some EmptyString).

Section WithLowerCase.

(** [String.prototype.toLowerCase] is the engine's and folds by the
    tables of Unicode: the inputs take it as it is and compare names
    through it. On ASCII text it is the fold of the letters A to Z. *)
Variable toLowerCase : string → string.
Hypothesis toLowerCase_ascii :
  ∀ s, JS.isAscii s = true → toLowerCase s = JS.toLowerCase s.

(** [a.toLowerCase() === b.toLowerCase()] *)
Definition sameName (a b : string) : bool :=
  bool_decide (toLowerCase a = toLowerCase b).

(** The predicate of [players.find] in the input's [onChange]. *)
Definition namedLike (inputValue : string) (p : Player) : bool :=
  sameName (currentIgn p) inputValue
  || match pastIgns p with
     | Some igns => existsb (λ ign, sameName ign inputValue) igns
     | None => false
     end.

(** The value that [onChange] stores for the text typed in an alt
    account input. *)
Definition resolveAltInput (players : list Player) (inputValue : string)
  : string :=
  if uuidRegex_test inputValue then inputValue
  else
    match List.find (namedLike inputValue) players with
    | Some player => uuid player
    | None => inputValue
    end.

(** The [onChange] handlers of the alt account inputs, one per entry of
    [playerForm.altAccounts], in order: each maps the text of its input
    to the next form. *)
Definition altAccountInputs (players : list Player) (playerForm : PlayerForm)
  : list (string → PlayerForm) :=
  imap (λ index _ inputValue,
          let newAltAccounts := default [] (form_altAccounts playerForm) in
          with_altAccounts
            (<[index := resolveAltInput players inputValue]> newAltAccounts)
            playerForm)
       (default [] (form_altAccounts playerForm)).

(** [inputValue] is, up to the case of letters, the current or a past
    IGN of player [p]. *)
Definition namesPlayer (inputValue : string) (p : Player) : Prop :=
  toLowerCase (currentIgn p) = toLowerCase inputValue ∨
  ∃ ign, ign ∈ default [] (pastIgns p) ∧
         toLowerCase ign = toLowerCase inputValue.

(* ---- the alt-account inputs: what a row stores ----------------------- *)

Lemma namedLike_namesPlayer inputValue p :
  namedLike inputValue p = true ↔ namesPlayer inputValue p.
Proof.
  unfold namedLike, namesPlayer, sameName.
  rewrite orb_true_iff, bool_decide_eq_true.
  destruct (pastIgns p) as [igns|]; simpl.
  - rewrite existsb_exists. split; (intros [H|H]; [by left|right]).
    + destruct H as (ign & Hin & Heq). exists ign.
      split; [by apply list_elem_of_In | by apply bool_decide_eq_true in Heq].
    + destruct H as (ign & Hin & Heq). exists ign.
      split; [by apply list_elem_of_In | by apply bool_decide_eq_true].
  - split; (intros [H|H]; [by left|]); [done|].
    destruct H as (ign & Hin & _). by apply elem_of_nil in Hin.
Qed.

(** [Array.prototype.find] gives the first element that passes. *)
Lemma find_first {A} (f : A → bool) (l : list A) x :
  List.find f l = Some x →
  ∃ before after,
    l = before ++ x :: after ∧ f x = true ∧ Forall (λ y, f y = false) before.
Proof.
  induction l as [|y l IH]; simpl; [done|].
  destruct (f y) eqn:Hy.
  - intros [= ->]. exists [], l. auto.
  - intros (before & after & -> & Hx & Hb)%IH.
    exists (y :: before), after. auto.
Qed.

Lemma find_none_all {A} (f : A → bool) (l : list A) :
  List.find f l = None ↔ Forall (λ y, f y = false) l.
Proof.
  induction l as [|y l IH]; simpl; [by split|].
  destruct (f y) eqn:Hy.
  - split; [done|]. intros [Hy' _]%Forall_cons. congruence.
  - rewrite IH. split; [by constructor | by intros [_ ?]%Forall_cons].
Qed.

Lemma resolveAltInput_uuid players inputValue :
  uuidRegex_test inputValue = true →
  resolveAltInput players inputValue = inputValue.
Proof. intros H. unfold resolveAltInput. by rewrite H. Qed.

Lemma resolveAltInput_name players inputValue :
  uuidRegex_test inputValue = false →
  (∃ p, p ∈ players ∧ namesPlayer inputValue p) →
  ∃ before p after,
    players = before ++ p :: after ∧
    Forall (λ q, ¬ namesPlayer inputValue q) before ∧
    namesPlayer inputValue p ∧
    resolveAltInput players inputValue = uuid p.
Proof.
  intros Hre (p & Hp & Hnames). unfold resolveAltInput. rewrite Hre.
  destruct (List.find (namedLike inputValue) players) as [q|] eqn:Hfind.
  - apply find_first in Hfind as (before & after & -> & Hq & Hbefore).
    exists before, q, after. split; [done|]. split; [|split; [|done]].
    + eapply Forall_impl; [exact Hbefore|]. simpl. intros r Hr Hn.
      apply namedLike_namesPlayer in Hn. congruence.
    + by apply namedLike_namesPlayer.
  - apply find_none_all in Hfind. rewrite Forall_forall in Hfind.
    apply namedLike_namesPlayer in Hnames. rewrite (Hfind p Hp) in Hnames.
    done.
Qed.

Lemma resolveAltInput_unknown players inputValue :
  uuidRegex_test inputValue = false →
  (∀ p, p ∈ players → ¬ namesPlayer inputValue p) →
  resolveAltInput players inputValue = inputValue.
Proof.
  intros Hre Hnone. unfold resolveAltInput. rewrite Hre.
  destruct (List.find (namedLike inputValue) players) as [q|] eqn:Hfind;
    [|done].
  apply find_first in Hfind as (before & after & -> & Hq & _).
  apply namedLike_namesPlayer in Hq. exfalso. apply (Hnone q); [|done].
  apply elem_of_app. right. apply elem_of_cons. by left.
Qed.

(** On ASCII text the names are compared up to the case of the letters
    A to Z. *)
Lemma ascii_namesPlayer inputValue p ign :
  ign = currentIgn p ∨ ign ∈ default [] (pastIgns p) →
  JS.isAscii ign = true → JS.isAscii inputValue = true →
  JS.toLowerCase ign = JS.toLowerCase inputValue →
  namesPlayer inputValue p.
Proof.
  intros Hign Ha Hb Heq.
  assert (toLowerCase ign = toLowerCase inputValue) as Hlow
    by (by rewrite !toLowerCase_ascii).
  destruct Hign as [->|Hin]; [by left|]. right. by exists ign.
Qed.

(** C6. The text typed in the alt account input of row [index] is stored
    in that row as follows: a text in UUID format as it is; otherwise,
    when it is the current or a past IGN of some player up to the case of
    letters, the UUID of the first such player of the list; otherwise the
    text as it is. Up to the case of letters is what [toLowerCase] of the
    engine makes equal; for ASCII text that is a difference in the case
    of the letters A to Z. *)
Theorem altAccount_input_resolution players playerForm index onChange
    inputValue :
  altAccountInputs players playerForm !! index = Some onChange →
  ∃ stored,
    form_altAccounts (onChange inputValue)
    = Some (<[index := stored]> (default [] (form_altAccounts playerForm))) ∧
    default [] (form_altAccounts (onChange inputValue)) !! index = Some stored ∧
    (uuidRegex_test inputValue = true → stored = inputValue) ∧
    (uuidRegex_test inputValue = false →
     (∃ p, p ∈ players ∧ namesPlayer inputValue p) →
     ∃ before p after,
       players = before ++ p :: after ∧
       Forall (λ q, ¬ namesPlayer inputValue q) before ∧
       namesPlayer inputValue p ∧
       stored = uuid p) ∧
    (uuidRegex_test inputValue = false →
     (∀ p, p ∈ players → ¬ namesPlayer inputValue p) →
     stored = inputValue) ∧
    (∀ p ign,
       ign = currentIgn p ∨ ign ∈ default [] (pastIgns p) →
       JS.isAscii ign = true → JS.isAscii inputValue = true →
       JS.toLowerCase ign = JS.toLowerCase inputValue →
       namesPlayer inputValue p).
Proof.
  unfold altAccountInputs. rewrite list_lookup_imap.
  destruct (default [] (form_altAccounts playerForm) !! index) as [old|]
    eqn:Hrow; simpl; [|done].
  intros [= <-]. exists (resolveAltInput players inputValue).
  split; [reflexivity|]. split.
  { simpl. apply list_lookup_insert_eq. by eapply lookup_lt_Some. }
  split; [apply resolveAltInput_uuid|].
  split; [apply resolveAltInput_name|].
  split; [apply resolveAltInput_unknown|].
  intros p ign. apply ascii_namesPlayer.
Qed.

End WithLowerCase.

(* ---- submitting the form --------------------------------------------- *)

(** What [await fetch(url)] and [await response.json()] come to: a
    response with [response.ok] and the [name] and [uuid] fields of its
    JSON body, a response without [response.ok], or an exception. *)
Inductive FetchResult :=
  | fetch_ok (data_name data_uuid : option string)
  | fetch_not_ok
  | fetch_throws.

(** The fields that [updateDoc] writes to the player document. *)
Record PlayerUpdate := {
  upd_currentIgn : string;
  upd_uuid : string;
  upd_pastIgns : list string;
  upd_role : option string;
  upd_lastUpdated : Z
}.

(** The calls that leave the page. *)
Inductive Call :=
  | fetch (url : string)
  | updateDoc (playerId : string) (fields : PlayerUpdate)
  | updatePlayerData (currentIgn : string) (role : option string)
      (altAccounts : list string).

Definition isWrite (c : Call) : Prop :=
  match c with fetch _ => False | _ => True end.

#[local] Instance isWrite_dec c : Decision (isWrite c).
Proof. destruct c; simpl; apply _. Defined.

(** How a block of statements ends: it runs to its end, it executes
    [return], or it throws; [message] is [err.message] when the exception
    is an [Error]. *)
Inductive Completion (A : Type) :=
  | Normal (a : A)
  | Returned
  | Threw (message : option string).
Arguments Normal {A} a.
Arguments Returned {A}.
Arguments Threw {A} message.

(** How the call of [updatePlayerData] ends: it resolves, or it throws,
    [message] being [err.message] when the exception is an [Error]. *)
Inductive Settled :=
  | resolves
  | throws (message : option string).

Section WithRemote.

(** [String.prototype.trim] is the engine's and strips the white space
    of Unicode: the handler takes it as it is. What the page relies on
    is that it leaves the empty string empty. *)
Variable trim : string → string.
Hypothesis trim_empty : trim "" = "".

(** The document store, and the world outside the page: the answers of
    the two profile services, the clock, and what the two writes do to
    the store. [updateDoc] writes one document or throws
    ([inr message]) and leaves the store as it was. [updatePlayerData]
    is imported from lib/playerUtils, which is not among the sources: it
    may write several documents, and it may have written some of them
    when it throws, so it answers with the store that it leaves and with
    the way it ends. *)
Variable Database : Type.
Variable fetch_result : string → FetchResult.
Variable Date_now : Z.
Variable updateDoc_result :
  string → PlayerUpdate → Database → Database + option string.
Variable updatePlayerData_result :
  string → option string → list string → Database → Database * Settled.

(** The component state read and written by [handleSubmit], the store,
    and the calls made so far, oldest first. *)
Record World := {
  playerForm : PlayerForm;
  selectedPlayer : option Player;
  error : string;
  success : string;
  database : Database;
  calls : list Call
}.

Definition Action (A : Type) : Type := World → Completion A * World.

Definition pure {A} (a : A) : Action A := λ w, (Normal a, w).

Definition bind {A B} (m : Action A) (k : A → Action B) : Action B :=
  λ w, match m w with
       | (Normal a, w') => k a w'
       | (Returned, w') => (Returned, w')
       | (Threw e, w') => (Threw e, w')
       end.

Notation "x <- m ;;; k" := (bind m (λ x, k))
  (at level 100, m at next level, k at level 200, right associativity).
Notation "m ;;; k" := (bind m (λ _, k))
  (at level 100, k at level 200, right associativity).

(** [return;] *)
Definition return_ {A} : Action A := λ w, (Returned, w).

(** [try { body } catch (err) { handler }] *)
Definition try_catch {A} (body : Action A) (handler : option string → Action A)
  : Action A :=
  λ w, match body w with
       | (Threw e, w') => handler e w'
       | r => r
       end.

(** [if (cond) { body }] *)
Definition when_ (cond : bool) (body : Action unit) : Action unit :=
  if cond then body else pure tt.

Definition getPlayerForm : Action PlayerForm := λ w, (Normal (playerForm w), w).
Definition getSelectedPlayer : Action (option Player) :=
  λ w, (Normal (selectedPlayer w), w).

Definition setPlayerForm (f : PlayerForm) : Action unit :=
  λ w, (Normal tt,
        {| playerForm := f; selectedPlayer := selectedPlayer w;
           error := error w; success := success w;
           database := database w; calls := calls w |}).

(** An assignment to a field of the [playerForm] object itself, as in
    [playerForm.currentIgn = data.name]: later reads in the handler see
    it. *)
Definition assignPlayerForm (f : PlayerForm) : Action unit := setPlayerForm f.

Definition setSelectedPlayer (p : option Player) : Action unit :=
  λ w, (Normal tt,
        {| playerForm := playerForm w; selectedPlayer := p;
           error := error w; success := success w;
           database := database w; calls := calls w |}).

Definition setError (msg : string) : Action unit :=
  λ w, (Normal tt,
        {| playerForm := playerForm w; selectedPlayer := selectedPlayer w;
           error := msg; success := success w;
           database := database w; calls := calls w |}).

Definition setSuccess (msg : string) : Action unit :=
  λ w, (Normal tt,
        {| playerForm := playerForm w; selectedPlayer := selectedPlayer w;
           error := error w; success := msg;
           database := database w; calls := calls w |}).

Definition record_call (c : Call) (db : Database) (w : World) : World :=
  {| playerForm := playerForm w; selectedPlayer := selectedPlayer w;
     error := error w; success := success w;
     database := db; calls := calls w ++ [c] |}.

(** [await fetch(url)] followed by [await response.json()] when the
    response is ok. *)
Definition await_fetch (url : string) : Action FetchResult :=
  λ w, match fetch_result url with
       | fetch_throws => (Threw None, record_call (fetch url) (database w) w)
       | r => (Normal r, record_call (fetch url) (database w) w)
       end.

(** [await updateDoc(doc(db, 'players', id), fields)] *)
Definition await_updateDoc (playerId : string) (fields : PlayerUpdate)
  : Action unit :=
  λ w, match updateDoc_result playerId fields (database w) with
       | inl db => (Normal tt, record_call (updateDoc playerId fields) db w)
       | inr e =>
           (Threw e, record_call (updateDoc playerId fields) (database w) w)
       end.

(** [await updatePlayerData(currentIgn, role, altAccounts)] *)
Definition await_updatePlayerData (ign : string) (role : option string)
    (alts : list string) : Action unit :=
  λ w, match updatePlayerData_result ign role alts (database w) with
       | (db, resolves) =>
           (Normal tt, record_call (updatePlayerData ign role alts) db w)
       | (db, throws e) =>
           (Threw e, record_call (updatePlayerData ign role alts) db w)
       end.

(** [s?.trim()] *)
Definition trimmed (s : option string) : option string := trim <$> s.

(** Truthiness of an optional string: present and not empty. *)
Definition truthy (s : option string) : bool :=
  match s with
  | Some s => negb (bool_decide (s = ""))
  | None => false
  end.

(** [s || ''] and [s ?? ''] *)
Definition orEmpty (s : option string) : string := default "" s.

(** [s || null] *)
Definition orNull (s : option string) : option string :=
  if truthy s then s else None.

(** [list?.filter(s => s.trim() !== '') || []] *)
Definition clean (l : option (list string)) : list string :=
  filter (λ s, trim s ≠ "") (default [] l).

Definition cleanAltAccounts (f : PlayerForm) : list string :=
  clean (form_altAccounts f).

Definition requiredMessage : string :=
  "Either Current IGN or UUID is required".

Definition selfAltMessage : string :=
  "A player cannot be their own alt account".

Definition duplicateAltMessage : string :=
  "Duplicate alt accounts are not allowed".

Definition handleSubmit : Action unit :=
  setError "" ;;;
  setSuccess "" ;;;
  try_catch
    ((* Basic validation *)
     playerForm <- getPlayerForm ;;;
     when_ (negb (truthy (trimmed (form_currentIgn playerForm)))
            && negb (truthy (trimmed (form_uuid playerForm))))
       (setError requiredMessage ;;; return_) ;;;
     (* Clean up the form data *)
     let cleanPastIgns := clean (form_pastIgns playerForm) in
     let cleanAltAccounts := clean (form_altAccounts playerForm) in
     (* If we have a UUID but no IGN, fetch the IGN *)
     when_ (truthy (trimmed (form_uuid playerForm))
            && negb (truthy (trimmed (form_currentIgn playerForm))))
       (try_catch
          (response <- await_fetch
             (String.append
                "https://sessionserver.mojang.com/session/minecraft/profile/"
                (orEmpty (form_uuid playerForm))) ;;;
           match response with
           | fetch_ok name _ =>
               assignPlayerForm (with_currentIgn name playerForm)
           | _ => setError "Invalid UUID provided" ;;; return_
           end)
          (λ _, setError "Failed to fetch player data from UUID" ;;; return_))
     ;;;
     (* If we have an IGN but no UUID, fetch the UUID *)
     playerForm <- getPlayerForm ;;;
     when_ (truthy (trimmed (form_currentIgn playerForm))
            && negb (truthy (trimmed (form_uuid playerForm))))
       (try_catch
          (response <- await_fetch
             (String.append "https://api.ashcon.app/mojang/v2/user/"
                (trim (orEmpty (form_currentIgn playerForm)))) ;;;
           match response with
           | fetch_ok _ uuid => assignPlayerForm (with_uuid uuid playerForm)
           | _ => setError "Invalid IGN provided" ;;; return_
           end)
          (λ _, setError "Failed to fetch player data from IGN" ;;; return_))
     ;;;
     (* Validate alt accounts *)
     playerForm <- getPlayerForm ;;;
     when_ (JS.includes cleanAltAccounts
              (orEmpty (trimmed (form_currentIgn playerForm)))
            || JS.includes cleanAltAccounts
                 (orEmpty (trimmed (form_uuid playerForm))))
       (setError selfAltMessage ;;; return_) ;;;
     (* Check for duplicate alt accounts *)
     let uniqueAlts := JS.Array_from_Set cleanAltAccounts in
     when_ (negb (bool_decide (length uniqueAlts = length cleanAltAccounts)))
       (setError duplicateAltMessage ;;; return_) ;;;
     (* If updating existing player *)
     selectedPlayer <- getSelectedPlayer ;;;
     when_ (truthy (id <$> selectedPlayer))
       (await_updateDoc (orEmpty (id <$> selectedPlayer))
          {| upd_currentIgn := orEmpty (trimmed (form_currentIgn playerForm));
             upd_uuid := orEmpty (trimmed (form_uuid playerForm));
             upd_pastIgns := cleanPastIgns;
             upd_role := orNull (form_role playerForm);
             upd_lastUpdated := Date_now |}) ;;;
     (* Process the player and their alt accounts *)
     try_catch
       (await_updatePlayerData
          (orEmpty (trimmed (form_currentIgn playerForm)))
          (orNull (form_role playerForm))
          cleanAltAccounts ;;;
        setSuccess (match selectedPlayer with
                    | Some _ => "Player updated successfully"
                    | None => "Player added successfully"
                    end) ;;;
        (* Reset form and selection *)
        setPlayerForm initialPlayerForm ;;;
        setSelectedPlayer None)
       (λ err,
          setError (match err with
                    | Some message =>
                        String.append "Failed to process alt accounts: " message
                    | None => "Failed to process alt accounts"
                    end) ;;;
          return_))
    (λ err,
       setError (match err with
                 | Some message => String.append "Failed to save player: " message
                 | None => "Failed to save player. Please try again."
                 end)).

(** The world after the submit handler has run. The outer [catch] also
    logs the exception to the console, which the world does not show. *)
Definition submit (w : World) : World := (handleSubmit w).2.

(** The write calls among the calls of a world. *)
Definition writes (w : World) : list Call := filter isWrite (calls w).

(** The messages of a failed lookup of the missing IGN or UUID. *)
Definition lookupMessages : list string :=
  [ "Invalid UUID provided";
    "Failed to fetch player data from UUID";
    "Invalid IGN provided";
    "Failed to fetch player data from IGN" ].

(** What the checks that come before the alt accounts make of a form:
    the message of the first one that fails, or the form as it stands
    once the missing IGN or UUID has been looked up. *)
Definition identified (f : PlayerForm) : string + PlayerForm :=
  match truthy (trimmed (form_currentIgn f)),
        truthy (trimmed (form_uuid f)) with
  | false, false => inl requiredMessage
  | false, true =>
      match fetch_result
              (String.append
                 "https://sessionserver.mojang.com/session/minecraft/profile/"
                 (orEmpty (form_uuid f))) with
      | fetch_ok name _ => inr (with_currentIgn name f)
      | fetch_not_ok => inl "Invalid UUID provided"
      | fetch_throws => inl "Failed to fetch player data from UUID"
      end
  | true, false =>
      match fetch_result
              (String.append "https://api.ashcon.app/mojang/v2/user/"
                 (trim (orEmpty (form_currentIgn f)))) with
      | fetch_ok _ uuid => inr (with_uuid uuid f)
      | fetch_not_ok => inl "Invalid IGN provided"
      | fetch_throws => inl "Failed to fetch player data from IGN"
      end
  | true, true => inr f
  end.

(** The form names the player itself among its alt accounts. *)
Definition selfReferential (f : PlayerForm) : Prop :=
  orEmpty (trimmed (form_currentIgn f)) ∈ cleanAltAccounts f ∨
  orEmpty (trimmed (form_uuid f)) ∈ cleanAltAccounts f.

#[local] Instance selfReferential_dec f : Decision (selfReferential f).
Proof. unfold selfReferential. apply _. Defined.

(** A run of the handler that wrote nothing and reports [msg]. *)
Definition rejectedWith (msg : string) (w w' : World) : Prop :=
  error w' = msg ∧ success w' = "" ∧
  writes w' = writes w ∧ database w' = database w ∧
  selectedPlayer w' = selectedPlayer w.

Lemma blank_orEmpty o : truthy (trimmed o) = false → orEmpty (trimmed o) = "".
Proof.
  destruct o as [s|]; simpl; [|done].
  case_bool_decide; [done | discriminate].
Qed.

Lemma empty_not_in_clean l : "" ∉ clean l.
Proof.
  unfold clean. intros [Hne _]%list_elem_of_filter.
  apply Hne, trim_empty.
Qed.

Lemma blank_not_in_clean o l :
  truthy (trimmed o) = false → JS.includes (clean l) (orEmpty (trimmed o)) = false.
Proof.
  intros ->%blank_orEmpty. apply JS.includes_false, empty_not_in_clean.
Qed.

Lemma selfReferential_includes f :
  JS.includes (clean (form_altAccounts f)) (orEmpty (trimmed (form_currentIgn f)))
  || JS.includes (clean (form_altAccounts f)) (orEmpty (trimmed (form_uuid f)))
  = bool_decide (selfReferential f).
Proof.
  unfold JS.includes. rewrite <- bool_decide_or.
  apply bool_decide_ext. reflexivity.
Qed.

Lemma duplicate_test l :
  negb (bool_decide (length (JS.Array_from_Set l) = length l))
  = bool_decide (¬ NoDup l).
Proof.
  rewrite bool_decide_not. f_equal. apply bool_decide_ext.
  apply JS.Array_from_Set_length_NoDup.
Qed.

Lemma writes_after_fetch url w w' :
  calls w' = calls w ++ [fetch url] → writes w' = writes w.
Proof.
  unfold writes. intros ->. rewrite filter_app.
  rewrite filter_cons_False by (simpl; tauto).
  by rewrite filter_nil, app_nil_r.
Qed.

(** Looking up the missing IGN or UUID leaves the other one, and the alt
    accounts, as they were typed. *)
Lemma identified_keeps f f' :
  identified f = inr f' →
  form_altAccounts f' = form_altAccounts f ∧
  (truthy (trimmed (form_currentIgn f)) = true →
   form_currentIgn f' = form_currentIgn f) ∧
  (truthy (trimmed (form_uuid f)) = true → form_uuid f' = form_uuid f).
Proof.
  unfold identified.
  destruct (truthy (trimmed (form_currentIgn f))),
           (truthy (trimmed (form_uuid f)));
    repeat match goal with
           | |- context [fetch_result ?u] => destruct (fetch_result u)
           end;
    intros [= <-]; done.
Qed.

(** A form that names the player among its alt accounts as typed still
    does so after the lookup. *)
Lemma identified_selfReferential f f' :
  identified f = inr f' → selfReferential f → selfReferential f'.
Proof.
  intros Hid Hself.
  destruct (identified_keeps f f' Hid) as (Halts & Hign & Huuid).
  unfold selfReferential, cleanAltAccounts in *. rewrite Halts.
  destruct Hself as [Hin|Hin]; [left|right].
  - destruct (truthy (trimmed (form_currentIgn f))) eqn:Ht.
    + by rewrite Hign.
    + rewrite (blank_orEmpty _ Ht) in Hin. by apply empty_not_in_clean in Hin.
  - destruct (truthy (trimmed (form_uuid f))) eqn:Ht.
    + by rewrite Huuid.
    + rewrite (blank_orEmpty _ Ht) in Hin. by apply empty_not_in_clean in Hin.
Qed.

Lemma identified_message f msg :
  identified f = inl msg → msg = requiredMessage ∨ msg ∈ lookupMessages.
Proof.
  unfold identified, lookupMessages.
  destruct (truthy (trimmed (form_currentIgn f))),
           (truthy (trimmed (form_uuid f)));
    repeat match goal with
           | |- context [fetch_result ?u] => destruct (fetch_result u)
           end;
    intros [= <-]; auto;
    right; repeat (apply elem_of_cons; (by left) || right).
Qed.

Arguments truthy : simpl never.
Arguments trimmed : simpl never.
Arguments orEmpty : simpl never.
Arguments clean : simpl never.

(** Runs the handler on a symbolic world, deciding each test and each
    answer of the profile services from the hypotheses at hand. *)
Ltac use_tests :=
  repeat (simpl;
          match goal with
          | H : ?b = true |- context [?b] => rewrite H
          | H : ?b = false |- context [?b] => rewrite H
          | H : fetch_result ?u = _ |- context [fetch_result ?u] => rewrite H
          end);
  simpl.

Ltac run_handler :=
  unfold submit, handleSubmit, bind, try_catch, when_, setError, setSuccess,
    getPlayerForm, getSelectedPlayer, return_, pure, assignPlayerForm,
    setPlayerForm, setSelectedPlayer, await_fetch, await_updateDoc,
    await_updatePlayerData;
  use_tests.

Ltac rejected :=
  unfold rejectedWith; simpl;
  repeat split; try reflexivity;
  try (eapply writes_after_fetch; reflexivity).

(** The two checks of the alt accounts on the form [f] that reaches
    them: the self-alt check first, then the check for duplicates. *)
Ltac alt_checks f :=
  pose proof (selfReferential_includes f) as Hself;
  pose proof (duplicate_test (clean (form_altAccounts f))) as Hdup;
  unfold cleanAltAccounts;
  destruct (decide (selfReferential f));
    [rewrite bool_decide_eq_true_2 in Hself by done
    |rewrite bool_decide_eq_false_2 in Hself by done];
  (destruct (decide (NoDup (clean (form_altAccounts f))));
    [rewrite (bool_decide_eq_false_2 (¬ NoDup _)) in Hdup by tauto
    |rewrite (bool_decide_eq_true_2 (¬ NoDup _)) in Hdup by done]);
  simpl in Hself, Hdup;
  try done;
  run_handler; rewrite ?andb_false_r; use_tests; rejected.

(** A form is rejected by the first check that it fails, in the order
    of the handler: the required field and the lookups, the self-alt
    check, the check for duplicates. *)
Lemma submit_validation w :
  match identified (playerForm w) with
  | inl msg => rejectedWith msg w (submit w)
  | inr f =>
      if decide (selfReferential f) then
        rejectedWith selfAltMessage w (submit w)
      else if decide (NoDup (cleanAltAccounts f)) then True
      else rejectedWith duplicateAltMessage w (submit w)
  end.
Proof.
  unfold identified.
  destruct (truthy (trimmed (form_currentIgn (playerForm w)))) eqn:Hign;
  destruct (truthy (trimmed (form_uuid (playerForm w)))) eqn:Huuid.
  - alt_checks (playerForm w).
  - destruct (fetch_result _) as [name uuid| |] eqn:Hfetch.
    + alt_checks (with_uuid uuid (playerForm w)).
    + run_handler. rejected.
    + run_handler. rejected.
  - destruct (fetch_result _) as [name uuid| |] eqn:Hfetch.
    + alt_checks (with_currentIgn name (playerForm w)).
    + run_handler. rejected.
    + run_handler. rejected.
  - run_handler. rejected.
Qed.

(** A complete, well-formed form for a new player goes through: the one
    call is [updatePlayerData], and the page reports success. *)
Lemma submit_accepted w db :
  truthy (trimmed (form_currentIgn (playerForm w))) = true →
  truthy (trimmed (form_uuid (playerForm w))) = true →
  ¬ selfReferential (playerForm w) →
  NoDup (cleanAltAccounts (playerForm w)) →
  selectedPlayer w = None →
  updatePlayerData_result
    (orEmpty (trimmed (form_currentIgn (playerForm w))))
    (orNull (form_role (playerForm w)))
    (cleanAltAccounts (playerForm w)) (database w) = (db, resolves) →
  calls (submit w)
  = calls w ++ [updatePlayerData
                  (orEmpty (trimmed (form_currentIgn (playerForm w))))
                  (orNull (form_role (playerForm w)))
                  (cleanAltAccounts (playerForm w))] ∧
  database (submit w) = db ∧
  success (submit w) = "Player added successfully" ∧
  error (submit w) = "".
Proof.
  intros Hign Huuid Hnself Hnodup Hsel Hupd.
  pose proof (selfReferential_includes (playerForm w)) as Hself.
  pose proof (duplicate_test (clean (form_altAccounts (playerForm w)))) as Hdup.
  rewrite bool_decide_eq_false_2 in Hself by done.
  rewrite (bool_decide_eq_false_2 (¬ NoDup _)) in Hdup by tauto.
  unfold cleanAltAccounts in Hupd |- *.
  run_handler. rewrite Hsel. simpl. rewrite Hupd. done.
Qed.

Lemma identified_lookup_message f msg :
  selfReferential f → identified f = inl msg → msg ∈ lookupMessages.
Proof.
  intros Hself. apply (bool_decide_eq_true_2 _) in Hself.
  rewrite <- selfReferential_includes in Hself.
  unfold identified, lookupMessages.
  destruct (truthy (trimmed (form_currentIgn f))) eqn:Hign;
  destruct (truthy (trimmed (form_uuid f))) eqn:Huuid;
    repeat match goal with
           | |- context [fetch_result ?u] => destruct (fetch_result u)
           end;
    intros [= <-];
    try (repeat (apply elem_of_cons; (by left) || right)).
  rewrite (blank_not_in_clean _ _ Hign), (blank_not_in_clean _ _ Huuid)
    in Hself. done.
Qed.

(** The form names the player among its alt accounts, as it is typed or
    as it stands once the missing IGN or UUID has been looked up. *)
Definition namesItself (f : PlayerForm) : Prop :=
  selfReferential f ∨ ∃ f', identified f = inr f' ∧ selfReferential f'.

(** C1 (amended). A form whose cleaned alt accounts contain the player's
    own trimmed UUID or own trimmed current IGN, as typed or as the
    lookup of the missing one has found it, is rejected without any
    write: no [updateDoc], no [updatePlayerData], the store as it was and
    no success message. The error is the self-alt message, unless the
    form lacks the IGN or the UUID and the lookup of the missing one
    fails: then it is the message of that lookup. *)
Theorem handleSubmit_rejects_self_alt w :
  namesItself (playerForm w) →
  writes (submit w) = writes w ∧
  database (submit w) = database w ∧
  success (submit w) = "" ∧
  match identified (playerForm w) with
  | inr _ => error (submit w) = selfAltMessage
  | inl msg => error (submit w) = msg ∧ msg ∈ lookupMessages
  end.
Proof.
  intros Hself. pose proof (submit_validation w) as Hval.
  unfold namesItself in Hself.
  destruct (identified (playerForm w)) as [msg|f] eqn:Hid.
  - destruct Hself as [Hself|(f' & [=] & _)].
    destruct Hval as (He & Hs & Hw & Hd & _).
    repeat (split; [done|]). by eapply identified_lookup_message.
  - assert (selfReferential f) as Hf.
    { destruct Hself as [Hself|(f' & [= <-] & Hself)]; [|done].
      by eapply identified_selfReferential. }
    rewrite decide_True in Hval by done.
    destruct Hval as (He & Hs & Hw & Hd & _). done.
Qed.

(** C2 (amended). A form whose cleaned alt accounts contain two equal
    entries is rejected without any write. The error is the message of
    the first check that fails, in the order of the handler: the required
    field or the lookup of a missing IGN or UUID; else the self-alt
    message when the player is among the alt accounts; else the
    duplicate-alt message. *)
Theorem handleSubmit_rejects_duplicate_alts w :
  ¬ NoDup (cleanAltAccounts (playerForm w)) →
  writes (submit w) = writes w ∧
  database (submit w) = database w ∧
  success (submit w) = "" ∧
  match identified (playerForm w) with
  | inr f =>
      error (submit w)
      = if decide (selfReferential f) then selfAltMessage
        else duplicateAltMessage
  | inl msg =>
      error (submit w) = msg ∧ (msg = requiredMessage ∨ msg ∈ lookupMessages)
  end.
Proof.
  intros Hdup. pose proof (submit_validation w) as Hval.
  destruct (identified (playerForm w)) as [msg|f] eqn:Hid.
  - destruct Hval as (He & Hs & Hw & Hd & _).
    repeat (split; [done|]). by eapply identified_message.
  - destruct (identified_keeps _ _ Hid) as (Halts & _).
    unfold cleanAltAccounts in Hval, Hdup. rewrite Halts in Hval.
    destruct (decide (selfReferential f)).
    + destruct Hval as (He & Hs & Hw & Hd & _). done.
    + rewrite decide_False in Hval by done.
      destruct Hval as (He & Hs & Hw & Hd & _). done.
Qed.

(* ---- what the handler does beyond the two alt-account checks --------- *)

Definition isFetch (c : Call) : Prop :=
  match c with fetch _ => True | _ => False end.

#[local] Instance isFetch_dec c : Decision (isFetch c).
Proof. destruct c; simpl; apply _. Defined.

(** The lookups that a form needs: one for the IGN of a UUID, one for
    the UUID of an IGN, none when both are given or both are missing. *)
Definition lookups (f : PlayerForm) : list Call :=
  match truthy (trimmed (form_currentIgn f)),
        truthy (trimmed (form_uuid f)) with
  | false, true =>
      [fetch (String.append
                "https://sessionserver.mojang.com/session/minecraft/profile/"
                (orEmpty (form_uuid f)))]
  | true, false =>
      [fetch (String.append "https://api.ashcon.app/mojang/v2/user/"
                (trim (orEmpty (form_currentIgn f))))]
  | _, _ => []
  end.

(** The fields that a valid form [f] writes to the player document. *)
Definition baseFields (f : PlayerForm) : PlayerUpdate :=
  {| upd_currentIgn := orEmpty (trimmed (form_currentIgn f));
     upd_uuid := orEmpty (trimmed (form_uuid f));
     upd_pastIgns := clean (form_pastIgns f);
     upd_role := orNull (form_role f);
     upd_lastUpdated := Date_now |}.

(** The form has passed every check: [f] is the form after the lookups. *)
Definition valid (w : World) (f : PlayerForm) : Prop :=
  identified (playerForm w) = inr f ∧
  ¬ selfReferential f ∧
  NoDup (cleanAltAccounts f).

(** X11. The handler writes, and reports success, for valid forms only:
    when a run has made a write call or has set the success message, the
    required field was there, every lookup had answered, the player was
    not among its own alt accounts and no alt account was repeated. *)
Theorem submit_writes_valid_only w :
  writes (submit w) ≠ writes w ∨ success (submit w) ≠ "" →
  ∃ f, valid w f.
Proof.
  intros Hdone. pose proof (submit_validation w) as Hval.
  assert (∀ msg, rejectedWith msg w (submit w) → False) as Hno.
  { intros msg (_ & Hs & Hw & _). by destruct Hdone. }
  destruct (identified (playerForm w)) as [msg|f] eqn:Hid;
    [by destruct (Hno msg)|].
  destruct (decide (selfReferential f)); [by destruct (Hno selfAltMessage)|].
  destruct (decide (NoDup (cleanAltAccounts f)));
    [|by destruct (Hno duplicateAltMessage)].
  by exists f.
Qed.

Lemma truthy_Some s : s ≠ "" → truthy (Some s) = true.
Proof. intros Hs. unfold truthy. by rewrite bool_decide_eq_false_2. Qed.

(** The world in which a valid form [f] reaches the writes: the
    messages cleared, the lookups made, the form as they left it. *)
Definition checked (w : World) (f : PlayerForm) : World :=
  {| playerForm := f;
     selectedPlayer := selectedPlayer w;
     error := "";
     success := "";
     database := database w;
     calls := calls w ++ lookups (playerForm w) |}.

(** The call of [updatePlayerData] for the form [f] and what follows it,
    from the world [w1]. *)
Definition processed (f : PlayerForm) (w1 : World) : World :=
  let ign := orEmpty (trimmed (form_currentIgn f)) in
  let role := orNull (form_role f) in
  let alts := cleanAltAccounts f in
  match updatePlayerData_result ign role alts (database w1) with
  | (db, resolves) =>
      {| playerForm := initialPlayerForm;
         selectedPlayer := None;
         error := error w1;
         success := match selectedPlayer w1 with
                    | Some _ => "Player updated successfully"
                    | None => "Player added successfully"
                    end;
         database := db;
         calls := calls w1 ++ [updatePlayerData ign role alts] |}
  | (db, throws e) =>
      {| playerForm := playerForm w1;
         selectedPlayer := selectedPlayer w1;
         error := match e with
                  | Some message =>
                      String.append "Failed to process alt accounts: " message
                  | None => "Failed to process alt accounts"
                  end;
         success := success w1;
         database := db;
         calls := calls w1 ++ [updatePlayerData ign role alts] |}
  end.

(** The two writes of a valid form [f] as a function of the world [w0]
    that reaches them. *)
Definition written (f : PlayerForm) (w0 : World) : World :=
  if truthy (id <$> selectedPlayer w0) then
    match updateDoc_result (orEmpty (id <$> selectedPlayer w0)) (baseFields f)
            (database w0) with
    | inl db =>
        processed f
          (record_call (updateDoc (orEmpty (id <$> selectedPlayer w0))
                          (baseFields f)) db w0)
    | inr e =>
        {| playerForm := playerForm w0;
           selectedPlayer := selectedPlayer w0;
           error := match e with
                    | Some message =>
                        String.append "Failed to save player: " message
                    | None => "Failed to save player. Please try again."
                    end;
           success := success w0;
           database := database w0;
           calls := calls w0 ++ [updateDoc (orEmpty (id <$> selectedPlayer w0))
                                   (baseFields f)] |}
    end
  else processed f w0.

(** Splits on every answer of the store that the run still depends on. *)
Ltac split_results :=
  repeat (simpl;
          match goal with
          | |- context [updateDoc_result ?a ?b ?c] =>
              destruct (updateDoc_result a b c) as [?|[?|]] eqn:?
          | |- context [updatePlayerData_result ?a ?b ?c ?d] =>
              destruct (updatePlayerData_result a b c d) as [? [|[?|]]] eqn:?
          end);
  simpl.

(** On a valid form the handler is the two writes after the lookups. *)
Lemma submit_valid w f : valid w f → submit w = written f (checked w f).
Proof.
  intros (Hid & Hns & Hnd).
  unfold written, processed, checked, record_call.
  unfold identified, lookups, baseFields, cleanAltAccounts in *.
  destruct (truthy (trimmed (form_currentIgn (playerForm w)))) eqn:Hign;
  destruct (truthy (trimmed (form_uuid (playerForm w)))) eqn:Huuid;
    try discriminate;
    try (destruct (fetch_result _) eqn:Hfetch; try discriminate);
    injection Hid as <-;
    match goal with
    | H : ¬ selfReferential ?f |- _ =>
        pose proof (selfReferential_includes f) as Hself;
        pose proof (duplicate_test (clean (form_altAccounts f))) as Hdup;
        rewrite bool_decide_eq_false_2 in Hself by done;
        rewrite (bool_decide_eq_false_2 (¬ NoDup _)) in Hdup by tauto
    end;
    clear Hns Hnd; simpl in Hself, Hdup;
    cbn [playerForm selectedPlayer error success database calls];
    destruct (truthy (id <$> selectedPlayer w)) eqn:Hpid;
    run_handler; rewrite ?andb_false_r; use_tests;
    split_results; rewrite <- ?app_assoc; reflexivity.
Qed.

(** The writes for a selected player with an id. *)
Lemma written_selected f w0 p :
  selectedPlayer w0 = Some p →
  id p ≠ "" →
  written f w0
  = match updateDoc_result (id p) (baseFields f) (database w0) with
    | inl db =>
        processed f (record_call (updateDoc (id p) (baseFields f)) db w0)
    | inr e =>
        {| playerForm := playerForm w0;
           selectedPlayer := selectedPlayer w0;
           error := match e with
                    | Some message =>
                        String.append "Failed to save player: " message
                    | None => "Failed to save player. Please try again."
                    end;
           success := success w0;
           database := database w0;
           calls := calls w0 ++ [updateDoc (id p) (baseFields f)] |}
    end.
Proof.
  intros Hsel Hpid%truthy_Some. unfold written. rewrite Hsel.
  cbn [fmap option_fmap option_map]. by rewrite Hpid.
Qed.

(** The writes when no player is selected. *)
Lemma written_unselected f w0 :
  selectedPlayer w0 = None → written f w0 = processed f w0.
Proof. intros Hsel. unfold written. by rewrite Hsel. Qed.

(** X12. When the write of the player document is rejected, the handler
    stops there: [updatePlayerData] is not called, the store is as it
    was, the form and the selection stay for another try, and the error
    carries the message of the exception. *)
Theorem submit_updateDoc_rejected w f p e :
  valid w f →
  selectedPlayer w = Some p →
  id p ≠ "" →
  updateDoc_result (id p) (baseFields f) (database w) = inr e →
  calls (submit w)
  = calls w ++ lookups (playerForm w) ++ [updateDoc (id p) (baseFields f)] ∧
  database (submit w) = database w ∧
  error (submit w)
  = match e with
    | Some message => String.append "Failed to save player: " message
    | None => "Failed to save player. Please try again."
    end ∧
  success (submit w) = "" ∧
  playerForm (submit w) = f ∧
  selectedPlayer (submit w) = Some p.
Proof.
  intros Hvalid Hsel Hpid Hupd.
  rewrite (submit_valid w f Hvalid), (written_selected f _ p) by done.
  cbn [checked database]. rewrite Hupd. simpl.
  by rewrite <- app_assoc, Hsel.
Qed.

(** X13. When [updatePlayerData] throws for an existing player, the
    write of the player document has gone through already and the
    handler makes no call to undo it: [updatePlayerData] was called on
    the store that [updateDoc] left, the store stays as the failed call
    leaves it, no third call is made, the error says that the alt
    accounts failed, and the form and the selection are kept. *)
Theorem submit_updatePlayerData_rejected w f p db db' e :
  valid w f →
  selectedPlayer w = Some p →
  id p ≠ "" →
  updateDoc_result (id p) (baseFields f) (database w) = inl db →
  updatePlayerData_result (orEmpty (trimmed (form_currentIgn f)))
    (orNull (form_role f)) (cleanAltAccounts f) db = (db', throws e) →
  calls (submit w)
  = calls w ++ lookups (playerForm w)
    ++ [updateDoc (id p) (baseFields f);
        updatePlayerData (orEmpty (trimmed (form_currentIgn f)))
          (orNull (form_role f)) (cleanAltAccounts f)] ∧
  database (submit w) = db' ∧
  error (submit w)
  = match e with
    | Some message => String.append "Failed to process alt accounts: " message
    | None => "Failed to process alt accounts"
    end ∧
  success (submit w) = "" ∧
  playerForm (submit w) = f ∧
  selectedPlayer (submit w) = Some p.
Proof.
  intros Hvalid Hsel Hpid Hupd Hdata.
  rewrite (submit_valid w f Hvalid), (written_selected f _ p) by done.
  cbn [checked database]. rewrite Hupd.
  unfold processed, record_call. simpl. rewrite Hdata. simpl.
  by rewrite <- !app_assoc, ?Hsel.
Qed.

(** X14. A valid form for an existing player is saved by [updateDoc] on
    the document of that player followed by [updatePlayerData], in this
    order and on the store that [updateDoc] left; then the page reports
    the update, empties the form and drops the selection. *)
Theorem submit_existing_player w f p db db' :
  valid w f →
  selectedPlayer w = Some p →
  id p ≠ "" →
  updateDoc_result (id p) (baseFields f) (database w) = inl db →
  updatePlayerData_result (orEmpty (trimmed (form_currentIgn f)))
    (orNull (form_role f)) (cleanAltAccounts f) db = (db', resolves) →
  calls (submit w)
  = calls w ++ lookups (playerForm w)
    ++ [updateDoc (id p) (baseFields f);
        updatePlayerData (orEmpty (trimmed (form_currentIgn f)))
          (orNull (form_role f)) (cleanAltAccounts f)] ∧
  database (submit w) = db' ∧
  success (submit w) = "Player updated successfully" ∧
  error (submit w) = "" ∧
  playerForm (submit w) = initialPlayerForm ∧
  selectedPlayer (submit w) = None.
Proof.
  intros Hvalid Hsel Hpid Hupd Hdata.
  rewrite (submit_valid w f Hvalid), (written_selected f _ p) by done.
  cbn [checked database]. rewrite Hupd.
  unfold processed, record_call. simpl. rewrite Hdata. simpl.
  by rewrite <- !app_assoc, ?Hsel.
Qed.

(** X15. A valid form with no player selected never calls [updateDoc]:
    its one write is [updatePlayerData], and the store is as that call
    leaves it. When the call resolves the page reports the new player
    and empties the form; when it throws the page shows the error of
    the alt accounts and keeps the form. *)
Theorem submit_new_player w f :
  valid w f →
  selectedPlayer w = None →
  calls (submit w)
  = calls w ++ lookups (playerForm w)
    ++ [updatePlayerData (orEmpty (trimmed (form_currentIgn f)))
          (orNull (form_role f)) (cleanAltAccounts f)] ∧
  match updatePlayerData_result (orEmpty (trimmed (form_currentIgn f)))
          (orNull (form_role f)) (cleanAltAccounts f) (database w) with
  | (db, resolves) =>
      database (submit w) = db ∧
      success (submit w) = "Player added successfully" ∧
      error (submit w) = "" ∧
      playerForm (submit w) = initialPlayerForm
  | (db, throws e) =>
      database (submit w) = db ∧
      success (submit w) = "" ∧
      error (submit w)
      = match e with
        | Some message =>
            String.append "Failed to process alt accounts: " message
        | None => "Failed to process alt accounts"
        end ∧
      playerForm (submit w) = f
  end.
Proof.
  intros Hvalid Hsel.
  rewrite (submit_valid w f Hvalid), written_unselected by done.
  unfold processed, checked. simpl. rewrite Hsel.
  destruct (updatePlayerData_result _ _ _ _) as [db [|e]]; simpl;
    by rewrite <- !app_assoc.
Qed.

Lemma identified_message_nonempty f msg : identified f = inl msg → msg ≠ "".
Proof.
  intros [->|Hin]%identified_message; [discriminate|].
  unfold lookupMessages in Hin.
  repeat (apply elem_of_cons in Hin as [->|Hin]; [discriminate|]).
  by apply elem_of_nil in Hin.
Qed.

(** X16. Every run of the handler ends with exactly one message on the
    page: an error and no success message, or the success message and
    no error, and then the form is empty and no player is selected. *)
Theorem submit_one_message w :
  (error (submit w) ≠ "" ∧ success (submit w) = "") ∨
  (error (submit w) = "" ∧ success (submit w) ≠ "" ∧
   playerForm (submit w) = initialPlayerForm ∧
   selectedPlayer (submit w) = None).
Proof.
  pose proof (submit_validation w) as Hval.
  destruct (identified (playerForm w)) as [msg|f] eqn:Hid.
  { left. destruct Hval as (-> & -> & _).
    split; [by eapply identified_message_nonempty | done]. }
  destruct (decide (selfReferential f)) as [Hself|Hself].
  { left. by destruct Hval as (-> & -> & _). }
  destruct (decide (NoDup (cleanAltAccounts f))) as [Hnodup|Hnodup].
  2: { left. by destruct Hval as (-> & -> & _). }
  rewrite (submit_valid w f) by done.
  unfold written, processed, checked. simpl.
  destruct (truthy (id <$> selectedPlayer w)); split_results;
    first [ by right; destruct (selectedPlayer w)
          | left; split; [discriminate|done] ].
Qed.

(* ---- the rows of the form, and what a submit reads of it ------------- *)

Definition with_pastIgns (v : list string) (f : PlayerForm) : PlayerForm :=
  {| form_id := form_id f;
     form_currentIgn := form_currentIgn f;
     form_uuid := form_uuid f;
     form_pastIgns := Some v;
     form_events := form_events f;
     form_role := form_role f;
     form_mainAccount := form_mainAccount f;
     form_altAccounts := form_altAccounts f |}.

(** The updater of "Add Past IGN":
    [pastIgns: [...(prev.pastIgns || []), '']] *)
Definition addPastIgn (prev : PlayerForm) : PlayerForm :=
  with_pastIgns (default [] (form_pastIgns prev) ++ [""]) prev.

(** The updater of "Add Alt Account". *)
Definition addAltAccount (prev : PlayerForm) : PlayerForm :=
  with_altAccounts (default [] (form_altAccounts prev) ++ [""]) prev.

(** The [onChange] of the past IGN input of row [index]: the text goes
    into a copy of the list of the rendered form [playerForm], and the
    copy into the form [prev]. [index] is the index of a rendered row. *)
Definition changePastIgn (playerForm : PlayerForm) (index : nat)
    (value : string) (prev : PlayerForm) : PlayerForm :=
  with_pastIgns (<[index := value]> (default [] (form_pastIgns playerForm)))
    prev.

(** The [onClick] of "Remove" in row [index]: [splice(index, 1)] on a
    copy of the list of the rendered form. *)
Definition removePastIgn (playerForm : PlayerForm) (index : nat)
    (prev : PlayerForm) : PlayerForm :=
  with_pastIgns (delete index (default [] (form_pastIgns playerForm))) prev.

Definition removeAltAccount (playerForm : PlayerForm) (index : nat)
    (prev : PlayerForm) : PlayerForm :=
  with_altAccounts (delete index (default [] (form_altAccounts playerForm)))
    prev.

(** What [handleSubmit] reads of the form: the IGN and the UUID, the
    role when there is one, and the rows that are not blank. *)
Definition sameEntries (f g : PlayerForm) : Prop :=
  form_currentIgn f = form_currentIgn g ∧
  form_uuid f = form_uuid g ∧
  orNull (form_role f) = orNull (form_role g) ∧
  clean (form_pastIgns f) = clean (form_pastIgns g) ∧
  clean (form_altAccounts f) = clean (form_altAccounts g).

(** The page with the form [g] in place of its own. *)
Definition editing (g : PlayerForm) (w : World) : World :=
  (setPlayerForm g w).2.

Lemma identified_sameEntries f g :
  sameEntries f g →
  match identified f, identified g with
  | inl msg, inl msg' => msg = msg'
  | inr f', inr g' => sameEntries f' g'
  | _, _ => False
  end.
Proof.
  intros (Hign & Huuid & Hrole & Hpast & Halts).
  unfold identified. rewrite Hign, Huuid.
  destruct (truthy (trimmed (form_currentIgn g)));
    destruct (truthy (trimmed (form_uuid g)));
    try destruct (fetch_result _); done.
Qed.

Lemma selfReferential_sameEntries f g :
  sameEntries f g → selfReferential f ↔ selfReferential g.
Proof.
  intros (Hign & Huuid & _ & _ & Halts).
  unfold selfReferential, cleanAltAccounts. by rewrite Hign, Huuid, Halts.
Qed.

Lemma baseFields_sameEntries f g :
  sameEntries f g → baseFields f = baseFields g.
Proof.
  intros (Hign & Huuid & Hrole & Hpast & _).
  unfold baseFields. by rewrite Hign, Huuid, Hrole, Hpast.
Qed.

(** What a run shows to the user and to the store. *)
Definition outcome (w : World)
  : string * string * list Call * Database * option Player :=
  (error w, success w, writes w, database w, selectedPlayer w).

Lemma processed_sameEntries f g w1 w2 :
  sameEntries f g → outcome w1 = outcome w2 →
  outcome (processed f w1) = outcome (processed g w2).
Proof.
  intros (Hign & _ & Hrole & _ & Halts) Hout.
  injection Hout as Herr Hsucc Hwrites Hdb Hsel. unfold writes in Hwrites.
  unfold processed, cleanAltAccounts. rewrite Hign, Hrole, Halts, Hdb.
  destruct (updatePlayerData_result _ _ _ _) as [db [|e]];
    unfold outcome, writes; simpl;
    by rewrite !filter_app, ?Herr, ?Hsucc, ?Hwrites, ?Hsel.
Qed.

Lemma written_sameEntries f g w1 w2 :
  sameEntries f g → outcome w1 = outcome w2 →
  outcome (written f w1) = outcome (written g w2).
Proof.
  intros Hsame Hout. pose proof Hout as Hout'.
  injection Hout' as Herr Hsucc Hwrites Hdb Hsel. unfold writes in Hwrites.
  unfold written. rewrite (baseFields_sameEntries f g Hsame), Hsel, Hdb.
  destruct (truthy _); [|by apply processed_sameEntries].
  destruct (updateDoc_result _ _ _).
  - apply processed_sameEntries; [done|].
    unfold outcome, record_call, writes; simpl.
    by rewrite !filter_app, ?Herr, ?Hsucc, ?Hwrites, ?Hsel.
  - unfold outcome, writes; simpl.
    by rewrite !filter_app, ?Herr, ?Hsucc, ?Hwrites, ?Hsel.
Qed.

Lemma rejectedWith_outcome msg w1 w2 w1' w2' :
  outcome w1 = outcome w2 →
  rejectedWith msg w1 w1' → rejectedWith msg w2 w2' →
  outcome w1' = outcome w2'.
Proof.
  intros Hout (He1 & Hs1 & Hw1 & Hd1 & Hp1) (He2 & Hs2 & Hw2 & Hd2 & Hp2).
  injection Hout as _ _ Hwrites Hdb Hsel. unfold outcome. congruence.
Qed.

Lemma lookups_no_write f : filter isWrite (lookups f) = [].
Proof.
  unfold lookups.
  destruct (truthy _), (truthy _); try done;
    by rewrite filter_cons_False by (simpl; tauto).
Qed.

(** The outcome of a submit depends on the form through its entries
    only. *)
Lemma submit_sameEntries w g :
  sameEntries (playerForm w) g →
  outcome (submit (editing g w)) = outcome (submit w).
Proof.
  intros Hsame.
  pose proof (submit_validation w) as Hval.
  pose proof (submit_validation (editing g w)) as Hval'.
  pose proof (identified_sameEntries _ _ Hsame) as Hid.
  change (playerForm (editing g w)) with g in Hval'.
  assert (outcome (editing g w) = outcome w) as Hout by done.
  destruct (identified (playerForm w)) as [msg|f] eqn:Hf;
    destruct (identified g) as [msg'|g'] eqn:Hg; try done.
  { subst msg'. by eapply rejectedWith_outcome. }
  pose proof (selfReferential_sameEntries _ _ Hid) as Hself.
  destruct (decide (selfReferential f)), (decide (selfReferential g'));
    try tauto.
  { by eapply rejectedWith_outcome. }
  assert (cleanAltAccounts f = cleanAltAccounts g') as Halts
    by apply Hid.
  rewrite <- Halts in Hval'.
  destruct (decide (NoDup (cleanAltAccounts f))).
  2: { by eapply rejectedWith_outcome. }
  rewrite (submit_valid w f), (submit_valid (editing g w) g').
  - symmetry. apply written_sameEntries; [done|].
    unfold outcome, checked, writes; simpl.
    by rewrite !filter_app, !lookups_no_write.
  - split; [done|]. split; [tauto | by rewrite <- Halts].
  - done.
Qed.

Lemma clean_snoc_blank l : clean (Some (l ++ [""])) = clean (Some l).
Proof.
  unfold clean. simpl. rewrite filter_app, filter_cons_False, filter_nil.
  - apply app_nil_r.
  - intros Hne. by apply Hne.
Qed.

Lemma clean_default l : clean (Some (default [] l)) = clean l.
Proof. by destruct l. Qed.

(** X17. Empty rows are not submitted. After "Add Past IGN" or "Add Alt
    Account" a submit ends as it would have ended without the click:
    the same messages, the same write calls, the same store and the
    same selection. *)
Theorem submit_ignores_added_rows w :
  outcome (submit (editing (addPastIgn (playerForm w)) w))
  = outcome (submit w) ∧
  outcome (submit (editing (addAltAccount (playerForm w)) w))
  = outcome (submit w).
Proof.
  split; apply submit_sameEntries; unfold sameEntries; simpl;
    rewrite clean_snoc_blank, clean_default; done.
Qed.

(** X18. The handler reads the form through its entries only: two forms
    with the same IGN, UUID and role and the same rows that are not
    blank are submitted alike, whatever their ids, events, main
    accounts and blank rows are. *)
Theorem submit_reads_entries w g :
  sameEntries (playerForm w) g →
  error (submit (editing g w)) = error (submit w) ∧
  success (submit (editing g w)) = success (submit w) ∧
  writes (submit (editing g w)) = writes (submit w) ∧
  database (submit (editing g w)) = database (submit w) ∧
  selectedPlayer (submit (editing g w)) = selectedPlayer (submit w).
Proof.
  intros Hsame. pose proof (submit_sameEntries w g Hsame) as Hout.
  by injection Hout.
Qed.

Lemma clean_blank_row (l : list string) index value :
  trim value = "" →
  clean (Some (<[index := value]> l)) = clean (Some (delete index l)).
Proof.
  intros Hblank. unfold clean. simpl.
  revert index. induction l as [|x l IH]; intros [|index]; simpl; try done.
  - by rewrite filter_cons_False by (intros Hne; by apply Hne).
  - rewrite !(filter_cons _ x). by rewrite IH.
Qed.

(** X19. A row of past IGNs that is blanked counts as removed: after the
    text of a row is replaced by blanks the form has the entries that it
    has after "Remove" on that row. A row that was added and is removed
    again leaves the rows as they were. *)
Theorem blank_row_as_removed f index value :
  trim value = "" →
  sameEntries (changePastIgn f index value f) (removePastIgn f index f) ∧
  form_pastIgns (removePastIgn (addPastIgn f)
                   (length (default [] (form_pastIgns f))) (addPastIgn f))
  = Some (default [] (form_pastIgns f)) ∧
  form_altAccounts (removeAltAccount (addAltAccount f)
                      (length (default [] (form_altAccounts f)))
                      (addAltAccount f))
  = Some (default [] (form_altAccounts f)).
Proof.
  intros Hblank. split; [|split].
  - unfold sameEntries; simpl. by rewrite clean_blank_row.
  - simpl. f_equal. induction (default [] (form_pastIgns f)); simpl;
      [done | by f_equal].
  - simpl. f_equal. induction (default [] (form_altAccounts f)); simpl;
      [done | by f_equal].
Qed.

(* ---- the UUID input -------------------------------------------------- *)

(** [setPlayerForm(prev => update(prev))] *)
Definition updatePlayerForm (update : PlayerForm → PlayerForm) : Action unit :=
  λ w, setPlayerForm (update (playerForm w)) w.

(** The [onChange] of the UUID input, for the text [uuid] of the
    input. *)
Definition uuid_onChange (uuid : string) : Action unit :=
  updatePlayerForm (with_uuid (Some uuid)) ;;;
  (* If valid UUID format, fetch current IGN *)
  when_ (uuidRegex_test uuid)
    (try_catch
       (response <- await_fetch
          (String.append
             "https://sessionserver.mojang.com/session/minecraft/profile/"
             uuid) ;;;
        match response with
        | fetch_ok name _ =>
            updatePlayerForm
              (λ prev, with_uuid (Some uuid) (with_currentIgn name prev))
        | _ => pure tt
        end)
       (λ _, pure tt)).

(** X20. Typing into the UUID input stores the text as the UUID of the
    form. The profile service is asked only when the text has the
    format of a UUID, and at most once; the IGN of the form changes only
    to the name of an answer that is ok; the other fields stay. Nothing
    is written and no message is set, also when the lookup fails. *)
Theorem uuid_onChange_effect uuid w :
  let w' := (uuid_onChange uuid w).2 in
  let url :=
    String.append
      "https://sessionserver.mojang.com/session/minecraft/profile/" uuid in
  form_uuid (playerForm w') = Some uuid ∧
  calls w' = calls w ++ (if uuidRegex_test uuid then [fetch url] else []) ∧
  (form_currentIgn (playerForm w') ≠ form_currentIgn (playerForm w) →
   uuidRegex_test uuid = true ∧
   ∃ name data_uuid,
     fetch_result url = fetch_ok name data_uuid ∧
     form_currentIgn (playerForm w') = name) ∧
  playerForm w'
  = with_currentIgn (form_currentIgn (playerForm w'))
      (with_uuid (Some uuid) (playerForm w)) ∧
  outcome w' = outcome w.
Proof.
  unfold uuid_onChange, updatePlayerForm, bind, when_, try_catch, await_fetch,
    setPlayerForm, pure, outcome, writes.
  destruct (uuidRegex_test uuid); simpl.
  2: { rewrite app_nil_r. done. }
  destruct (fetch_result _) as [name data_uuid| |] eqn:Hfetch; simpl;
    rewrite ?filter_app, ?filter_cons_False, ?filter_nil, ?app_nil_r
      by (simpl; tauto);
    (split; [done|]); (split; [done|]); (split; [|done]);
    intros Hne; try done.
  split; [done|]. by exists name, data_uuid.
Qed.

End WithRemote.

Arguments playerForm {Database} w.
Arguments selectedPlayer {Database} w.
Arguments error {Database} w.
Arguments success {Database} w.
Arguments database {Database} w.
Arguments calls {Database} w.
Arguments writes {Database} w.

(* ---- the format of a UUID -------------------------------------------- *)

Lemma hexDigits_length n s t :
  hexDigits n s = Some t → String.length s = (n + String.length t)%nat.
Proof.
  revert s. induction n as [|n IH]; intros s; simpl.
  { by intros [= ->]. }
  destruct s as [|c s]; [done|]. destruct (isHexDigit c); [|done].
  intros Hs%IH. simpl. lia.
Qed.

Lemma hyphen_length s t :
  hyphen s = Some t → String.length s = S (String.length t).
Proof.
  destruct s as [|c s]; simpl; [done|].
  case_bool_decide; [|done]. by intros [= ->].
Qed.

Lemma hexGroups_length sizes s t :
  sizes ≠ [] →
  hexGroups sizes s = Some t →
  String.length s
  = (list_sum sizes + (length sizes - 1) + String.length t)%nat.
Proof.
  revert s. induction sizes as [|n [|m sizes] IH]; intros s Hne; [done|..].
  - cbn [hexGroups]. intros Hs%hexDigits_length. simpl. lia.
  - cbn [hexGroups].
    destruct (hexDigits n s) as [s'|] eqn:Hd; [|done].
    destruct (hyphen s') as [s''|] eqn:Hh; [|done].
    intros Hg%IH; [|done].
    apply hexDigits_length in Hd. apply hyphen_length in Hh.
    cbn [list_sum foldr length] in *. lia.
Qed.

(** X21. The text that the pattern of a UUID accepts has 36
    characters. *)
Theorem uuidRegex_test_length s :
  uuidRegex_test s = true → String.length s = 36%nat.
Proof.
  unfold uuidRegex_test. intros Hs%bool_decide_eq_true.
  by apply hexGroups_length in Hs.
Qed.

Lemma isHexDigit_toLowerCase c :
  isHexDigit (JS.toLowerCase_char c) = isHexDigit c.
Proof. by destruct c as [[] [] [] [] [] [] [] []]. Qed.

Lemma hyphen_toLowerCase c :
  bool_decide (JS.toLowerCase_char c = "-"%char)
  = bool_decide (c = "-"%char).
Proof. by destruct c as [[] [] [] [] [] [] [] []]. Qed.

Lemma hexDigits_toLowerCase n s :
  hexDigits n (JS.toLowerCase s) = JS.toLowerCase <$> hexDigits n s.
Proof.
  revert s. induction n as [|n IH]; intros s; simpl; [done|].
  destruct s as [|c s]; simpl; [done|].
  rewrite isHexDigit_toLowerCase. by destruct (isHexDigit c).
Qed.

Lemma hyphen_toLowerCase_string s :
  hyphen (JS.toLowerCase s) = JS.toLowerCase <$> hyphen s.
Proof.
  destruct s as [|c s]; simpl; [done|].
  rewrite hyphen_toLowerCase. by case_bool_decide.
Qed.

Lemma hexGroups_toLowerCase sizes s :
  hexGroups sizes (JS.toLowerCase s) = JS.toLowerCase <$> hexGroups sizes s.
Proof.
  revert s. induction sizes as [|n [|m sizes] IH]; intros s; [done|..].
  - cbn [hexGroups]. apply hexDigits_toLowerCase.
  - cbn [hexGroups]. rewrite hexDigits_toLowerCase.
    destruct (hexDigits n s) as [s'|]; simpl; [|done].
    rewrite hyphen_toLowerCase_string.
    destruct (hyphen s') as [s''|]; simpl; [|done]. apply IH.
Qed.

(** X22. The pattern of a UUID does not look at the case of letters. *)
Theorem uuidRegex_test_case s :
  uuidRegex_test (JS.toLowerCase s) = uuidRegex_test s.
Proof.
  unfold uuidRegex_test. rewrite hexGroups_toLowerCase.
  apply bool_decide_ext.
  destruct (hexGroups _ s) as [[|c t]|]; simpl; split; intros [=]; done.
Qed.

(** X23. When the UUIDs of the stored players have the format of a
    UUID, what an alt account input stores is stored again as it is
    when it is typed into the input: resolving is idempotent. *)
Theorem resolveAltInput_idempotent (toLowerCase : string → string) players
    inputValue :
  Forall (λ p, uuidRegex_test (uuid p) = true) players →
  resolveAltInput toLowerCase players
    (resolveAltInput toLowerCase players inputValue)
  = resolveAltInput toLowerCase players inputValue.
Proof.
  intros Hall. unfold resolveAltInput.
  destruct (uuidRegex_test inputValue) eqn:Hre; [by rewrite Hre|].
  destruct (List.find _ players) as [player|] eqn:Hfind.
  - apply find_some in Hfind as [Hin _].
    rewrite Forall_forall in Hall.
    rewrite Hall; [done|]. by apply list_elem_of_In.
  - by rewrite Hre, Hfind.
Qed.

(* ---- the search box -------------------------------------------------- *)

Section Search.

(** [String.prototype.toLowerCase] of the engine, as for the inputs. *)
Variable toLowerCase : string → string.

(** The predicate of [players.filter] in [filteredPlayers]. *)
Definition matchesSearch (searchTerm : string) (player : Player) : bool :=
  JS.String_includes (toLowerCase (currentIgn player))
    (toLowerCase searchTerm)
  || match pastIgns player with
     | Some igns =>
         existsb (λ ign, JS.String_includes (toLowerCase ign)
                           (toLowerCase searchTerm)) igns
     | None => false
     end.

Definition filteredPlayers (players : list Player) (searchTerm : string)
  : list Player :=
  filter (λ player, matchesSearch searchTerm player = true) players.

(** X25. The search finds every player that the text names: a player
    whose current IGN or one of whose past IGNs is the text, up to the
    case of letters, is in the list that is shown. *)
Theorem filteredPlayers_finds_named players searchTerm p :
  p ∈ players → namesPlayer toLowerCase searchTerm p →
  p ∈ filteredPlayers players searchTerm.
Proof.
  intros Hin Hnames. apply list_elem_of_filter. split; [|done].
  unfold matchesSearch. apply orb_true_iff.
  destruct Hnames as [Hcur|(ign & Hign & Hpast)].
  - left. rewrite Hcur. apply JS.String_includes_refl.
  - right. destruct (pastIgns p) as [igns|]; simpl in Hign.
    + apply existsb_exists. exists ign. split.
      * by apply list_elem_of_In.
      * rewrite Hpast. apply JS.String_includes_refl.
    + by apply elem_of_nil in Hign.
Qed.

End Search.


(* ---- the roles dropdown ---------------------------------------------- *)

Definition with_role (v : option string) (f : PlayerForm) : PlayerForm :=
  {| form_id := form_id f;
     form_currentIgn := form_currentIgn f;
     form_uuid := form_uuid f;
     form_pastIgns := form_pastIgns f;
     form_events := form_events f;
     form_role := v;
     form_mainAccount := form_mainAccount f;
     form_altAccounts := form_altAccounts f |}.

(** [playerForm.role ? playerForm.role.split(',') : []] *)
Definition currentRoles (playerForm : PlayerForm) : list string :=
  match form_role playerForm with
  | Some r => if bool_decide (r = "") then [] else JS.split "," r
  | None => []
  end.

(** The [onClick] of the entry of the role [role_id] in the dropdown:
    the roles are read from the rendered form [playerForm], the new
    role goes into the form [prev]. *)
Definition toggleRole (playerForm : PlayerForm) (role_id : string)
    (prev : PlayerForm) : PlayerForm :=
  let currentRoles := currentRoles playerForm in
  let newRoles :=
    if JS.includes currentRoles role_id
    then filter (λ id, id ≠ role_id) currentRoles
    else currentRoles ++ [role_id] in
  with_role (if decide (0 < length newRoles)%nat
             then Some (JS.join "," newRoles) else None)
    prev.

(** The form after a click on the role, rendered again. *)
Definition clickRole (role_id : string) (f : PlayerForm) : PlayerForm :=
  toggleRole f role_id f.

Lemma currentRoles_pieces f :
  Forall (λ x, ¬ JS.occurs "," x) (currentRoles f).
Proof.
  unfold currentRoles. destruct (form_role f) as [r|]; [|constructor].
  case_bool_decide; [constructor | apply JS.split_pieces].
Qed.

(** The roles of a form whose role is the join of the roles [l], or
    missing when there are none. *)
Lemma currentRoles_joined (l : list string) f :
  Forall (λ x, ¬ JS.occurs "," x) l →
  l ≠ [""] →
  currentRoles
    (with_role (if decide (0 < length l)%nat
                then Some (JS.join "," l) else None) f) = l.
Proof.
  intros Hall Hne. unfold currentRoles. simpl.
  destruct l as [|x [|y l]]; simpl length.
  - done.
  - rewrite decide_True by lia. simpl.
    assert (x ≠ "") by congruence.
    rewrite bool_decide_eq_false_2 by done.
    apply JS.split_no_sep. by apply Forall_inv in Hall.
  - rewrite decide_True by lia.
    rewrite bool_decide_eq_false_2 by apply JS.join_two_nonempty.
    by apply (JS.split_join ","%char).
Qed.

Lemma filter_ne_app_fresh (l : list string) x :
  x ∉ l → filter (λ y, y ≠ x) (l ++ [x]) = l.
Proof.
  intros Hnin. rewrite filter_app, filter_cons_False, filter_nil, app_nil_r.
  - apply JS.filter_all. apply Forall_forall. by intros y Hy ->.
  - by intros Hne.
Qed.

(** X26. A click on a role in the dropdown toggles it: for a role id
    that is not empty and holds no comma, the role is among the roles of
    the form after the click exactly when it was not among them
    before. *)
Theorem clickRole_toggles role_id f :
  role_id ≠ "" → ¬ JS.occurs "," role_id →
  role_id ∈ currentRoles (clickRole role_id f)
  ↔ role_id ∉ currentRoles f.
Proof.
  intros Hne Hcomma. unfold clickRole, toggleRole.
  pose proof (currentRoles_pieces f) as Hpieces.
  destruct (JS.includes (currentRoles f) role_id) eqn:Hin.
  - apply JS.includes_true in Hin.
    set (rest := filter (λ id, id ≠ role_id) (currentRoles f)).
    assert (role_id ∉ rest) as Hrest.
    { unfold rest. rewrite list_elem_of_filter. tauto. }
    destruct (decide (rest = [""])) as [Hblank|Hblank].
    + rewrite Hblank. simpl. unfold currentRoles. simpl.
      split; [by intros ?%elem_of_nil | done].
    + rewrite currentRoles_joined; [tauto| |done].
      unfold rest. apply Forall_forall. intros x [_ Hx]%list_elem_of_filter.
      rewrite Forall_forall in Hpieces. by apply Hpieces.
  - apply JS.includes_false in Hin.
    rewrite currentRoles_joined.
    + split; [done|]. intros _. apply elem_of_app. right.
      by apply list_elem_of_singleton.
    + apply Forall_app. split; [done|]. by repeat constructor.
    + intros Heq. destruct (currentRoles f) as [|x [|y l]];
        simpl in Heq; congruence.
Qed.

(** X27. Selecting a role and clicking it again restores the role of
    the form: for a role id that is not empty, holds no comma and is not
    among the roles of the form, two clicks give back the role of the
    form, an empty role as a missing one. *)
Theorem clickRole_twice role_id f :
  role_id ≠ "" → ¬ JS.occurs "," role_id →
  role_id ∉ currentRoles f →
  form_role (clickRole role_id (clickRole role_id f)) = orNull (form_role f).
Proof.
  intros Hne Hcomma Hnin.
  pose proof (currentRoles_pieces f) as Hpieces.
  unfold clickRole at 1. unfold toggleRole.
  assert (currentRoles (clickRole role_id f) = currentRoles f ++ [role_id])
    as ->.
  { unfold clickRole, toggleRole.
    rewrite (proj2 (JS.includes_false _ _)) by done.
    apply currentRoles_joined.
    - apply Forall_app. split; [done|]. by repeat constructor.
    - intros Heq. destruct (currentRoles f) as [|x [|y l]];
        simpl in Heq; congruence. }
  rewrite (proj2 (JS.includes_true _ _))
    by (apply elem_of_app; right; by apply list_elem_of_singleton).
  rewrite filter_ne_app_fresh by done. simpl.
  unfold currentRoles, orNull, truthy in *.
  destruct (form_role f) as [r|]; [|done].
  case_bool_decide as Hr; simpl; [done|].
  pose proof (JS.split_nonempty "," r) as Hsplit.
  rewrite decide_True by (destruct (JS.split "," r); [done | simpl; lia]).
  f_equal. apply JS.join_split.
Qed.

Section WithRoleOrder.

(** [ROLE_ORDER] is imported from config/players: the ids of the known
    roles, by priority. *)
Variable ROLE_ORDER : list string.

Record Role := {
  role_id : string;
  role_tag : string;
  role_color : string
}.

(** The comparator of [sortedRoles]. *)
Definition byRoleOrder (a b : Role) : option Z :=
  let aIndex := JS.indexOf ROLE_ORDER (role_id a) in
  let bIndex := JS.indexOf ROLE_ORDER (role_id b) in
  if decide (aIndex = -1 ∧ bIndex = -1)%Z then Some 0%Z
  else if decide (aIndex = -1)%Z then Some 1%Z
  else if decide (bIndex = -1)%Z then Some (-1)%Z
  else Some (aIndex - bIndex)%Z.

(** [[...roles].sort(...)] *)
Definition sortedRoles (roles : list Role) : list Role :=
  JS.Array_sort byRoleOrder roles.

(** The place of a role in the dropdown: its index in [ROLE_ORDER], and
    the length of [ROLE_ORDER] for a role that is not listed. *)
Definition priority (a : Role) : Z :=
  let index := JS.indexOf ROLE_ORDER (role_id a) in
  if decide (index = -1)%Z then Z.of_nat (length ROLE_ORDER) else index.

Lemma byRoleOrder_priority roles : JS.ordersBy byRoleOrder priority roles.
Proof.
  intros a b _ _. unfold JS.SortCompare, byRoleOrder, priority.
  pose proof (JS.indexOf_range ROLE_ORDER (role_id a)) as Ha.
  pose proof (JS.indexOf_range ROLE_ORDER (role_id b)) as Hb.
  repeat case_decide; simpl; lia.
Qed.

(** X28. The dropdown lists the roles of [ROLE_ORDER] first, by their
    order there, and the other roles after them; roles of the same
    place, the unlisted ones among them, keep the order in which they
    were fetched; and no role is lost or added. *)
Theorem sortedRoles_by_priority roles :
  sortedRoles roles ≡ₚ roles ∧
  StronglySorted (λ a b, priority a ≤ priority b)%Z (sortedRoles roles) ∧
  ∀ t, filter (λ a, priority a = t) (sortedRoles roles)
       = filter (λ a, priority a = t) roles.
Proof.
  split; [apply JS.Array_sort_Permutation|]. split.
  - apply JS.Array_sort_sorted_by, byRoleOrder_priority.
  - intros t. apply JS.Array_sort_stable_by, byRoleOrder_priority.
Qed.

End WithRoleOrder.

(* ---- sample runs ------------------------------------------------------ *)

(** The sample runs are on ASCII text, where [trim] and [toLowerCase] of
    the engine are [JS.trim_ascii] and [JS.toLowerCase]. The store holds
    player documents by id, [updateDoc] writes the fields under the id,
    and [updatePlayerData] succeeds. *)
Definition sample_updateDoc (playerId : string) (fields : PlayerUpdate)
    (db : gmap string PlayerUpdate) : gmap string PlayerUpdate + option string :=
  inl (<[playerId := fields]> db).

Definition sample_updatePlayerData (ign : string) (role : option string)
    (alts : list string) (db : gmap string PlayerUpdate)
  : gmap string PlayerUpdate * Settled :=
  (db, resolves).

(** A profile service that knows nobody, and one that knows one player. *)
Definition knows_nobody (url : string) : FetchResult := fetch_not_ok.

Definition knows_steve (url : string) : FetchResult :=
  fetch_ok (Some "Steve") (Some "8667ba71-b85a-4004-af54-457a9734eed7").

(** A run of the handler against given writes and a given profile
    service. *)
Definition sample_run
    (updateDoc_result :
       string → PlayerUpdate → gmap string PlayerUpdate
       → gmap string PlayerUpdate + option string)
    (updatePlayerData_result :
       string → option string → list string → gmap string PlayerUpdate
       → gmap string PlayerUpdate * Settled)
    (fetch_result : string → FetchResult)
    (w : World (gmap string PlayerUpdate)) : World (gmap string PlayerUpdate) :=
  submit JS.trim_ascii (gmap string PlayerUpdate) fetch_result 1700000000000%Z
    updateDoc_result updatePlayerData_result w.

Definition sample_submit (fetch_result : string → FetchResult)
    (w : World (gmap string PlayerUpdate)) : World (gmap string PlayerUpdate) :=
  sample_run sample_updateDoc sample_updatePlayerData fetch_result w.

Definition sample_world (f : PlayerForm) : World (gmap string PlayerUpdate) :=
  {| playerForm := f; selectedPlayer := None; error := ""; success := "";
     database := ∅; calls := [] |}.

Definition sample_form (ign uuid : string) (alts : list string) : PlayerForm :=
  {| form_id := None;
     form_currentIgn := Some ign;
     form_uuid := Some uuid;
     form_pastIgns := Some [];
     form_events := Some [];
     form_role := None;
     form_mainAccount := None;
     form_altAccounts := Some alts |}.

Definition steve_uuid : string := "8667ba71-b85a-4004-af54-457a9734eed7".
Definition alex_uuid : string := "ec561538-f3fd-461d-aff5-086b22154bce".

Definition sample_steve : Player :=
  {| id := "p1"; currentIgn := "Steve"; uuid := steve_uuid;
     pastIgns := Some ["Stevie"]; events := []; role := None;
     mainAccount := None; altAccounts := None |}.

Definition sample_players : list Player :=
  [ sample_steve;
    {| id := "p2"; currentIgn := "Alex"; uuid := alex_uuid;
       pastIgns := None; events := []; role := None;
       mainAccount := None; altAccounts := Some [] |} ].

(** The UUID of the form among its alt accounts, the IGN left blank, and
    a profile service that does not know the UUID: the form is rejected
    with the message of the lookup. *)
Lemma self_alt_lookup_counterexample :
  ¬ (∀ (fetch_result : string → FetchResult)
       (w : World (gmap string PlayerUpdate)),
       selfReferential JS.trim_ascii (playerForm w) →
       error (sample_submit fetch_result w) = selfAltMessage ∧
       writes (sample_submit fetch_result w) = writes w ∧
       database (sample_submit fetch_result w) = database w).
Proof.
  intros Hclaim.
  destruct (Hclaim knows_nobody
              (sample_world (sample_form " " steve_uuid [steve_uuid])))
    as [Herr _].
  - right. apply JS.includes_true. reflexivity.
  - vm_compute in Herr. discriminate.
Qed.

(** The IGN of the form twice among its alt accounts: the form is
    rejected with the self-alt message. *)
Lemma duplicate_alt_message_counterexample :
  ¬ (∀ (fetch_result : string → FetchResult)
       (w : World (gmap string PlayerUpdate)),
       ¬ NoDup (cleanAltAccounts JS.trim_ascii (playerForm w)) →
       error (sample_submit fetch_result w) = duplicateAltMessage ∧
       writes (sample_submit fetch_result w) = writes w).
Proof.
  intros Hclaim.
  destruct (Hclaim knows_nobody
              (sample_world (sample_form "Steve" steve_uuid ["Steve"; "Steve"])))
    as [Herr _].
  - intros Hnodup. apply JS.Array_from_Set_length_NoDup in Hnodup.
    vm_compute in Hnodup. discriminate.
  - vm_compute in Herr. discriminate.
Qed.

Lemma handleSubmit_rejects_self_alt_witness :
  error (sample_submit knows_steve
           (sample_world (sample_form "" steve_uuid [alex_uuid; "Steve"])))
  = selfAltMessage ∧
  writes (sample_submit knows_steve
              (sample_world (sample_form "" steve_uuid [alex_uuid; "Steve"])))
  = [].
Proof.
  destruct (handleSubmit_rejects_self_alt JS.trim_ascii JS.trim_ascii_empty
              (gmap string PlayerUpdate)
              knows_steve 1700000000000%Z sample_updateDoc
              sample_updatePlayerData
              (sample_world (sample_form "" steve_uuid [alex_uuid; "Steve"])))
    as (Hwrites & _ & _ & Herror).
  - right. eexists. split; [reflexivity|].
    left. apply JS.includes_true. reflexivity.
  - split; [exact Herror | exact Hwrites].
Defined.

Lemma handleSubmit_rejects_duplicate_alts_witness :
  error (sample_submit knows_nobody
           (sample_world (sample_form "Steve" steve_uuid [alex_uuid; alex_uuid])))
  = duplicateAltMessage ∧
  writes (sample_submit knows_nobody
              (sample_world (sample_form "Steve" steve_uuid
                               [alex_uuid; alex_uuid])))
  = [].
Proof.
  destruct (handleSubmit_rejects_duplicate_alts JS.trim_ascii
              (gmap string PlayerUpdate)
              knows_nobody 1700000000000%Z sample_updateDoc
              sample_updatePlayerData
              (sample_world (sample_form "Steve" steve_uuid
                               [alex_uuid; alex_uuid])))
    as (Hwrites & _ & _ & Herror).
  - intros Hnodup. apply JS.Array_from_Set_length_NoDup in Hnodup.
    vm_compute in Hnodup. discriminate.
  - split; [exact Herror | exact Hwrites].
Defined.

(** The same form with distinct alt accounts goes through. *)
Example sample_accepted :
  calls (sample_submit knows_nobody
             (sample_world (sample_form "Steve" steve_uuid [alex_uuid])))
  = [updatePlayerData "Steve" None [alex_uuid]].
Proof. reflexivity. Qed.

(** With the IGN left blank and a profile service that knows the UUID,
    the self-alt check still fires after the lookup. *)
Example sample_self_alt_after_lookup :
  error (sample_submit knows_steve
           (sample_world (sample_form " " steve_uuid [steve_uuid])))
  = selfAltMessage.
Proof. reflexivity. Qed.

(** The alt accounts are compared as typed: an entry that differs from
    the trimmed UUID by surrounding blanks is not taken for the player. *)
Example sample_padded_alt_accepted :
  calls (sample_submit knows_nobody
             (sample_world
                (sample_form "Steve" steve_uuid
                   [String.append " " steve_uuid])))
  = [updatePlayerData "Steve" None [String.append " " steve_uuid]].
Proof. reflexivity. Qed.

Example sample_resolve :
  resolveAltInput JS.toLowerCase sample_players "STEVIE" = steve_uuid ∧
  resolveAltInput JS.toLowerCase sample_players "alex" = alex_uuid ∧
  resolveAltInput JS.toLowerCase sample_players "Herobrine" = "Herobrine" ∧
  resolveAltInput JS.toLowerCase sample_players
    "EC561538-F3FD-461D-AFF5-086B22154BCE"
  = "EC561538-F3FD-461D-AFF5-086B22154BCE".
Proof. repeat split; reflexivity. Qed.

Lemma altAccount_input_resolution_witness :
  ∃ onChange stored,
    altAccountInputs JS.toLowerCase sample_players
      (sample_form "Alex" alex_uuid [""]) !! 0%nat = Some onChange ∧
    default [] (form_altAccounts (onChange "STEVIE")) !! 0%nat = Some stored ∧
    stored = steve_uuid.
Proof.
  eexists.
  edestruct (altAccount_input_resolution JS.toLowerCase (λ s _, eq_refl)
               sample_players (sample_form "Alex" alex_uuid [""]) 0%nat _
               "STEVIE" eq_refl)
    as (stored & _ & Hrow & _ & _ & _).
  exists stored. split; [reflexivity|]. split; [exact Hrow|].
  vm_compute in Hrow. injection Hrow as <-. reflexivity.
Defined.

(* ---- sample runs of the writes --------------------------------------- *)

(** A store that refuses every write of a player document, and an
    [updatePlayerData] that has written the document of the first alt
    account when it throws something that is not an [Error]. *)
Definition sample_updateDoc_denied (playerId : string) (fields : PlayerUpdate)
    (db : gmap string PlayerUpdate) : gmap string PlayerUpdate + option string :=
  inr (Some "permission-denied").

Definition sample_updatePlayerData_failing (ign : string)
    (role : option string) (alts : list string) (db : gmap string PlayerUpdate)
  : gmap string PlayerUpdate * Settled :=
  (<["alt" := {| upd_currentIgn := default "" (head alts);
                 upd_uuid := "";
                 upd_pastIgns := [];
                 upd_role := None;
                 upd_lastUpdated := 0 |}]> db,
   throws None).

(** The page with [sample_steve] selected and the form [f]. *)
Definition sample_editing (f : PlayerForm) : World (gmap string PlayerUpdate) :=
  {| playerForm := f; selectedPlayer := Some sample_steve; error := "";
     success := ""; database := ∅; calls := [] |}.

Definition sample_steve_form : PlayerForm :=
  sample_form "Steve" steve_uuid [alex_uuid].

Definition sample_steve_fields : PlayerUpdate :=
  baseFields JS.trim_ascii 1700000000000%Z sample_steve_form.

Lemma sample_valid fetch_result selected :
  valid JS.trim_ascii (gmap string PlayerUpdate) fetch_result
    {| playerForm := sample_steve_form;
       selectedPlayer := selected; error := ""; success := "";
       database := ∅; calls := [] |}
    sample_steve_form.
Proof.
  split; [reflexivity|]. split.
  - intros Hself. apply (bool_decide_pack _) in Hself.
    by vm_compute in Hself.
  - apply (bool_decide_unpack _). reflexivity.
Qed.

Lemma submit_writes_valid_only_witness :
  ∃ f, valid JS.trim_ascii (gmap string PlayerUpdate) knows_nobody
         (sample_world sample_steve_form) f.
Proof.
  apply (submit_writes_valid_only JS.trim_ascii (gmap string PlayerUpdate)
           knows_nobody 1700000000000%Z sample_updateDoc
           sample_updatePlayerData).
  right. vm_compute. discriminate.
Defined.

Lemma submit_updateDoc_rejected_witness :
  calls (sample_run sample_updateDoc_denied sample_updatePlayerData
           knows_nobody (sample_editing sample_steve_form))
  = [updateDoc "p1" sample_steve_fields] ∧
  error (sample_run sample_updateDoc_denied sample_updatePlayerData
           knows_nobody (sample_editing sample_steve_form))
  = "Failed to save player: permission-denied".
Proof.
  destruct (submit_updateDoc_rejected JS.trim_ascii (gmap string PlayerUpdate)
              knows_nobody 1700000000000%Z sample_updateDoc_denied
              sample_updatePlayerData
              (sample_editing sample_steve_form) sample_steve_form
              sample_steve (Some "permission-denied"))
    as (Hcalls & _ & Herror & _).
  - apply sample_valid.
  - reflexivity.
  - discriminate.
  - reflexivity.
  - split; [exact Hcalls | exact Herror].
Defined.

Lemma submit_updatePlayerData_rejected_witness :
  (λ fields, upd_currentIgn fields) <$>
    database (sample_run sample_updateDoc sample_updatePlayerData_failing
                knows_nobody (sample_editing sample_steve_form))
  = {[ "p1" := "Steve"; "alt" := alex_uuid ]} ∧
  error (sample_run sample_updateDoc sample_updatePlayerData_failing
           knows_nobody (sample_editing sample_steve_form))
  = "Failed to process alt accounts".
Proof.
  destruct (submit_updatePlayerData_rejected JS.trim_ascii
              (gmap string PlayerUpdate)
              knows_nobody 1700000000000%Z sample_updateDoc
              sample_updatePlayerData_failing
              (sample_editing sample_steve_form) sample_steve_form
              sample_steve
              {[ "p1" := sample_steve_fields ]}
              (sample_updatePlayerData_failing "Steve" None [alex_uuid]
                 {[ "p1" := sample_steve_fields ]}).1
              None)
    as (_ & Hdb & Herror & _).
  - apply sample_valid.
  - reflexivity.
  - discriminate.
  - reflexivity.
  - reflexivity.
  - split; [|exact Herror].
    unfold sample_run. rewrite Hdb. vm_compute. reflexivity.
Defined.

Lemma submit_existing_player_witness :
  calls (sample_submit knows_nobody (sample_editing sample_steve_form))
  = [updateDoc "p1" sample_steve_fields;
     updatePlayerData "Steve" None [alex_uuid]] ∧
  success (sample_submit knows_nobody (sample_editing sample_steve_form))
  = "Player updated successfully".
Proof.
  destruct (submit_existing_player JS.trim_ascii (gmap string PlayerUpdate)
              knows_nobody 1700000000000%Z sample_updateDoc
              sample_updatePlayerData
              (sample_editing sample_steve_form) sample_steve_form
              sample_steve
              {[ "p1" := sample_steve_fields ]}
              {[ "p1" := sample_steve_fields ]})
    as (Hcalls & _ & Hsuccess & _).
  - apply sample_valid.
  - reflexivity.
  - discriminate.
  - reflexivity.
  - reflexivity.
  - split; [exact Hcalls | exact Hsuccess].
Defined.

Lemma submit_new_player_witness :
  calls (sample_submit knows_nobody (sample_world sample_steve_form))
  = [updatePlayerData "Steve" None [alex_uuid]].
Proof.
  destruct (submit_new_player JS.trim_ascii (gmap string PlayerUpdate)
              knows_nobody 1700000000000%Z sample_updateDoc
              sample_updatePlayerData
              (sample_world sample_steve_form) sample_steve_form)
    as (Hcalls & _).
  - apply sample_valid.
  - reflexivity.
  - exact Hcalls.
Defined.

Lemma submit_ignores_added_rows_witness :
  outcome _ (sample_submit knows_nobody
               (editing _ (addAltAccount sample_steve_form)
                  (sample_world sample_steve_form)))
  = outcome _ (sample_submit knows_nobody (sample_world sample_steve_form)).
Proof.
  exact (proj2 (submit_ignores_added_rows JS.trim_ascii JS.trim_ascii_empty
                  (gmap string PlayerUpdate) knows_nobody 1700000000000%Z
                  sample_updateDoc sample_updatePlayerData
                  (sample_world sample_steve_form))).
Defined.

Lemma submit_reads_entries_witness :
  writes (sample_submit knows_nobody
            (editing _ (sample_form "Steve" steve_uuid [alex_uuid; " "])
               (sample_world sample_steve_form)))
  = writes (sample_submit knows_nobody (sample_world sample_steve_form)).
Proof.
  destruct (submit_reads_entries JS.trim_ascii (gmap string PlayerUpdate)
              knows_nobody 1700000000000%Z sample_updateDoc
              sample_updatePlayerData
              (sample_world sample_steve_form)
              (sample_form "Steve" steve_uuid [alex_uuid; " "]))
    as (_ & _ & Hwrites & _).
  - repeat split; reflexivity.
  - exact Hwrites.
Defined.

Lemma blank_row_as_removed_witness :
  sameEntries JS.trim_ascii
    (changePastIgn (formOf sample_steve) 0 "  " (formOf sample_steve))
    (removePastIgn (formOf sample_steve) 0 (formOf sample_steve)).
Proof.
  destruct (blank_row_as_removed JS.trim_ascii (formOf sample_steve) 0 "  ")
    as [Hsame _].
  - reflexivity.
  - exact Hsame.
Defined.

Lemma uuidRegex_test_length_witness : String.length steve_uuid = 36%nat.
Proof. apply uuidRegex_test_length. reflexivity. Defined.

Lemma resolveAltInput_idempotent_witness :
  resolveAltInput JS.toLowerCase sample_players
    (resolveAltInput JS.toLowerCase sample_players "stevie")
  = resolveAltInput JS.toLowerCase sample_players "stevie".
Proof.
  apply resolveAltInput_idempotent.
  repeat constructor.
Defined.

Lemma filteredPlayers_finds_named_witness :
  sample_steve ∈ filteredPlayers JS.toLowerCase sample_players "STEVIE".
Proof.
  apply filteredPlayers_finds_named.
  - apply elem_of_cons. by left.
  - right. exists "Stevie". split; [|reflexivity].
    apply list_elem_of_singleton. reflexivity.
Defined.

(** A form with two roles. *)
Definition sample_roles : PlayerForm :=
  with_role (Some "mod,vip") (sample_form "Steve" steve_uuid []).

Lemma sample_admin_fresh :
  "admin" ≠ "" ∧ ¬ JS.occurs "," "admin" ∧ "admin" ∉ currentRoles sample_roles.
Proof.
  split; [done|]. split.
  - simpl. intros Hc. repeat destruct Hc as [Hc|Hc]; done.
  - apply (bool_decide_unpack _). reflexivity.
Qed.

Lemma clickRole_toggles_witness :
  "admin" ∈ currentRoles (clickRole "admin" sample_roles).
Proof.
  apply clickRole_toggles; apply sample_admin_fresh.
Defined.

Lemma clickRole_twice_witness :
  form_role (clickRole "admin" (clickRole "admin" sample_roles))
  = Some "mod,vip".
Proof.
  apply (clickRole_twice "admin" sample_roles); apply sample_admin_fresh.
Defined.

End PlayerManagement.
